(** * Portfolio dashboard: the sector aggregation and the polling component

    A shallow embedding of [PortfolioTable] (src/pages/_app.tsx): the
    [data.reduce] that builds [groupedBySector], the [chartData] derived from
    it with [Object.entries], and the fetch / timer life cycle of the
    component.

    Numbers are kept abstract: [num] with a binary [add] and a constant
    [zero].  Nothing is assumed about [add] unless a statement says so, so
    the results that carry no law hold for the IEEE doubles of the runtime as
    well as for exact numbers. *)

From Stdlib Require Import ZArith NArith Ascii Floats.
From stdpp Require Import base option list strings gmap sorting pretty.

Local Open Scope string_scope.
Local Open Scope list_scope.

(** ** Data model *)

(** [StockData].  Its declaration (types/portfolio) is not among the sources
    at hand; the fields are the ones the column accessors and the reducer
    use.  [sector] indexes a [Record<string, ...>], so it is a string.  The
    types of [peRatio] and [latestEarnings] are not visible and are left as
    a parameter. *)
Module StockData.
Record t (num info : Type) : Type := mk {
  name : string;
  exchange : string;
  quantity : num;
  purchasePrice : num;
  cmp : num;
  investment : num;
  presentValue : num;
  gainLoss : num;
  peRatio : info;
  latestEarnings : info;
  sector : string
}.
Arguments mk {num info}.
Arguments name {num info}.
Arguments exchange {num info}.
Arguments quantity {num info}.
Arguments purchasePrice {num info}.
Arguments cmp {num info}.
Arguments investment {num info}.
Arguments presentValue {num info}.
Arguments gainLoss {num info}.
Arguments peRatio {num info}.
Arguments latestEarnings {num info}.
Arguments sector {num info}.
End StockData.

(** The value type of the accumulator,
    [{ purchasePrice; investment; presentValue; gainLoss }]. *)
Module Summary.
Record t (num : Type) : Type := mk {
  purchasePrice : num;
  investment : num;
  presentValue : num;
  gainLoss : num
}.
Arguments mk {num}.
Arguments purchasePrice {num}.
Arguments investment {num}.
Arguments presentValue {num}.
Arguments gainLoss {num}.
End Summary.

(** One element of [chartData]. *)
Module ChartEntry.
Record t (num : Type) : Type := mk {
  name : string;
  investment : num;
  purchasePrice : num;
  presentValue : num;
  gainLoss : num
}.
Arguments mk {num}.
Arguments name {num}.
Arguments investment {num}.
Arguments purchasePrice {num}.
Arguments presentValue {num}.
Arguments gainLoss {num}.

(** [entry[key]] for a numeric field, as the chart reads it through
    [dataKey]. *)
Definition get {num} (key : string) (e : t num) : option num :=
  if decide (key = "investment") then Some (investment e)
  else if decide (key = "purchasePrice") then Some (purchasePrice e)
  else if decide (key = "presentValue") then Some (presentValue e)
  else if decide (key = "gainLoss") then Some (gainLoss e)
  else None.
End ChartEntry.

(** ** The accumulator object

    The accumulator starts as the literal [{}]: an ordinary object whose
    prototype is [Object.prototype].  Its own properties are kept in creation
    order, as the engine keeps them. *)
Module Js.

Abbreviation Obj V := (list (string * V)).

(** The property names every ordinary object inherits from
    [Object.prototype].  Each of them resolves to a built-in function (or,
    for [__proto__], to [Object.prototype] itself), hence to an object. *)
Definition prototype_names : list string :=
  [ "constructor"; "__proto__"; "hasOwnProperty"; "isPrototypeOf";
    "propertyIsEnumerable"; "toLocaleString"; "toString"; "valueOf";
    "__defineGetter__"; "__defineSetter__";
    "__lookupGetter__"; "__lookupSetter__" ].

Definition inherited (k : string) : bool :=
  bool_decide (k ∈ prototype_names).

(** What a property read [o[k]] can yield here. *)
Inductive Value (V : Type) : Type :=
| Undefined
| Own (v : V)
| Builtin (k : string).
Arguments Undefined {V}.
Arguments Own {V}.
Arguments Builtin {V}.

(** ToBoolean: [undefined] is falsy, every object is truthy. *)
Definition truthy {V} (v : Value V) : bool :=
  match v with
  | Undefined => false
  | Own _ | Builtin _ => true
  end.

Fixpoint get_own {V} (k : string) (o : Obj V) : option V :=
  match o with
  | [] => None
  | (k', v) :: o' => if decide (k = k') then Some v else get_own k o'
  end.

(** [o[k]]: the own property if there is one, else the prototype chain. *)
Definition Get {V} (o : Obj V) (k : string) : Value V :=
  match get_own k o with
  | Some v => Own v
  | None => if inherited k then Builtin k else Undefined
  end.

(** Writing the own property [k]: an existing property keeps its place, a
    new one is created after the others. *)
Fixpoint set_own {V} (k : string) (v : V) (o : Obj V) : Obj V :=
  match o with
  | [] => [(k, v)]
  | (k', v') :: o' =>
      if decide (k = k') then (k', v) :: o' else (k', v') :: set_own k v o'
  end.

(** The own keys, as they were created.  The program never sees this order:
    it enumerates the object with [Object.entries] only ([entries] below);
    what the statements use of [keys] is which keys there are. *)
Definition keys {V} (o : Obj V) : list string := o.*1.

(** *** Enumeration order of [Object.entries]

    Own keys that are array indices (canonical decimal numerals below
    [2^32 - 1]) come first, in ascending numeric order; the other string
    keys follow in creation order. *)
Definition digit (c : ascii) : option N :=
  let n := N_of_ascii c in
  if ((48 <=? n) && (n <=? 57))%N then Some (n - 48)%N else None.

Fixpoint decimal (acc : N) (s : string) : option N :=
  match s with
  | EmptyString => Some acc
  | String c s' =>
      match digit c with
      | Some d => decimal (10 * acc + d)%N s'
      | None => None
      end
  end.

Definition array_index (s : string) : option N :=
  match s with
  | EmptyString => None
  | String "0" EmptyString => Some 0%N
  | String "0" _ => None
  | _ =>
      match decimal 0 s with
      | Some n => if (n <? 2 ^ 32 - 1)%N then Some n else None
      | None => None
      end
  end.

Definition is_index (s : string) : bool := bool_decide (is_Some (array_index s)).

Definition index_le {V} (p q : string * V) : Prop :=
  (default 0 (array_index p.1) ≤ default 0 (array_index q.1))%N.

#[global] Instance index_le_dec {V} (p q : string * V) :
  Decision (index_le p q).
Proof. unfold index_le. apply _. Defined.

Definition entries {V} (o : Obj V) : list (string * V) :=
  merge_sort index_le (filter (λ p, is_index p.1 = true) o)
  ++ filter (λ p, is_index p.1 = false) o.

End Js.


(** ** The sector aggregation *)

Section Aggregation.

Context {num info : Type}.
Variable add : num → num → num.
Variable zero : num.

Local Abbreviation Stock := (StockData.t num info).
Local Abbreviation Totals := (Summary.t num).

(** The object literal a sector starts from. *)
Definition fresh : Totals :=
  {| Summary.purchasePrice := zero;
     Summary.investment := zero;
     Summary.presentValue := zero;
     Summary.gainLoss := zero |}.

(** [acc[k].f += x] for each of the four fields, on the summary object. *)
Definition add_investment (x : num) (s : Totals) : Totals :=
  Summary.mk (Summary.purchasePrice s) (add (Summary.investment s) x)
             (Summary.presentValue s) (Summary.gainLoss s).

Definition add_presentValue (x : num) (s : Totals) : Totals :=
  Summary.mk (Summary.purchasePrice s) (Summary.investment s)
             (add (Summary.presentValue s) x) (Summary.gainLoss s).

Definition add_purchasePrice (x : num) (s : Totals) : Totals :=
  Summary.mk (add (Summary.purchasePrice s) x) (Summary.investment s)
             (Summary.presentValue s) (Summary.gainLoss s).

Definition add_gainLoss (x : num) (s : Totals) : Totals :=
  Summary.mk (Summary.purchasePrice s) (Summary.investment s)
             (Summary.presentValue s) (add (Summary.gainLoss s) x).

(** One statement [acc[k].f += x].  The object [acc[k]] is read through the
    prototype chain.  When it is an own summary, the summary is updated in
    place.  When it is one of the built-in objects reached through
    [Object.prototype], the write goes to that object and [acc] keeps its own
    properties; what the write leaves there is [undefined + x], that is NaN,
    which is falsy, so later reads of [acc[k]] are answered as before.  The
    [Undefined] branch stands for the TypeError of reading a field of
    [undefined]; the reducer never gets there ([reducer_target_truthy],
    [compound_assign_keeps_target]). *)
Definition compound_assign (upd : Totals → Totals)
    (acc : Js.Obj Totals) (k : string) : Js.Obj Totals :=
  match Js.Get acc k with
  | Js.Own s => Js.set_own k (upd s) acc
  | Js.Builtin _ => acc
  | Js.Undefined => acc
  end.

(** The guard [if (!acc[stock.sector]) acc[stock.sector] = {...}]. *)
Definition ensure (acc : Js.Obj Totals) (k : string) : Js.Obj Totals :=
  if negb (Js.truthy (Js.Get acc k)) then Js.set_own k fresh acc else acc.

(** The callback of [data.reduce]. *)
Definition reducer (acc : Js.Obj Totals) (stock : Stock) : Js.Obj Totals :=
  let k := StockData.sector stock in
  let acc := ensure acc k in
  let acc := compound_assign (add_investment (StockData.investment stock)) acc k in
  let acc := compound_assign (add_presentValue (StockData.presentValue stock)) acc k in
  let acc := compound_assign (add_purchasePrice (StockData.purchasePrice stock)) acc k in
  let acc := compound_assign (add_gainLoss (StockData.gainLoss stock)) acc k in
  acc.

(** [data.reduce(reducer, {})]. *)
Definition groupedBySector (data : list Stock) : Js.Obj Totals :=
  foldl reducer [] data.

(** [Object.entries(groupedBySector).map(([sector, summary]) => ...)]. *)
Definition chartData (data : list Stock) : list (ChartEntry.t num) :=
  (λ p : string * Totals,
     {| ChartEntry.name := p.1;
        ChartEntry.investment := Summary.investment p.2;
        ChartEntry.purchasePrice := Summary.purchasePrice p.2;
        ChartEntry.presentValue := Summary.presentValue p.2;
        ChartEntry.gainLoss := Summary.gainLoss p.2 |})
  <$> Js.entries (groupedBySector data).

(** *** Reference notions the statements compare against *)

(** The holdings of a list whose sector is exactly [k], in input order. *)
Definition members (k : string) (data : list Stock) : list Stock :=
  filter (λ h, StockData.sector h = k) data.

(** The sum of a field over a list: [zero + x1 + x2 + ...] in list order. *)
Definition total (f : Stock → num) (l : list Stock) : num :=
  foldl (λ a h, add a (f h)) zero l.

Definition totals (l : list Stock) : Totals :=
  {| Summary.purchasePrice := total StockData.purchasePrice l;
     Summary.investment := total StockData.investment l;
     Summary.presentValue := total StockData.presentValue l;
     Summary.gainLoss := total StockData.gainLoss l |}.

(** Two holdings that agree on the five fields the reducer reads. *)
Definition same_aggregated_fields (a b : Stock) : Prop :=
  StockData.sector a = StockData.sector b
  ∧ StockData.purchasePrice a = StockData.purchasePrice b
  ∧ StockData.investment a = StockData.investment b
  ∧ StockData.presentValue a = StockData.presentValue b
  ∧ StockData.gainLoss a = StockData.gainLoss b.

(** Field-wise sum of two summaries, and of the entries two aggregations
    hold under one key (a key absent on one side contributes nothing). *)
Definition plus (s1 s2 : Totals) : Totals :=
  {| Summary.purchasePrice :=
       add (Summary.purchasePrice s1) (Summary.purchasePrice s2);
     Summary.investment := add (Summary.investment s1) (Summary.investment s2);
     Summary.presentValue :=
       add (Summary.presentValue s1) (Summary.presentValue s2);
     Summary.gainLoss := add (Summary.gainLoss s1) (Summary.gainLoss s2) |}.

Definition pointwise_sum (a b : option Totals) : option Totals :=
  match a, b with
  | Some s1, Some s2 => Some (plus s1 s2)
  | Some s1, None => Some s1
  | None, b => b
  end.

(** All four [+=] of one reducer call, on a summary. *)
Definition accumulate (s : Totals) (stock : Stock) : Totals :=
  add_gainLoss (StockData.gainLoss stock)
    (add_purchasePrice (StockData.purchasePrice stock)
       (add_presentValue (StockData.presentValue stock)
          (add_investment (StockData.investment stock) s))).

End Aggregation.

(** ** The component: state hook, fetch and timer

    [fetchPortfolio] (lib/api) is an external collaborator; all that is used
    of it is that the promise it returns settles, either fulfilled with the
    full portfolio list or rejected with some reason. *)

Module Component.

Section Component.

Context {num info Err : Type}.

Local Abbreviation Stock := (StockData.t num info).

(** How an awaited promise settles. *)
Inductive Settled (A : Type) : Type :=
| Fulfilled (a : A)
| Rejected (e : Err).
Arguments Fulfilled {A}.
Arguments Rejected {A}.

(** The functions the component hands to the host as callbacks. *)
Inductive Callback : Type := FetchAndSet.

(** The calls the component makes to React and to the host, in order. *)
Inductive Call : Type :=
| CallFetchPortfolio
| CallSetData (portfolio : list Stock)
| CallSetInterval (cb : Callback) (delay : Z) (id : nat)
| CallClearInterval (id : nat).

Record World : Type := mkWorld {
  data : list Stock;                 (* the value of the state hook *)
  timers : gmap nat (Callback * Z);  (* the host's active intervals *)
  next_id : nat;                     (* the next timer id the host hands out *)
  pending : nat;                     (* calls of fetchAndSet suspended at the await *)
  stale : nat;                       (* suspended calls of instances torn down *)
  cleanup : option nat;              (* the effect's cleanup closure and its [interval] *)
  unhandled : list Err;              (* rejections that no handler observed *)
  trace : list Call
}.

(** [useState<StockData[]>([])] before anything ran. *)
Definition initial : World :=
  {| data := []; timers := ∅; next_id := 0; pending := 0; stale := 0;
     cleanup := None; unhandled := []; trace := [] |}.

(** Code of the component runs in a state monad over [World] whose results
    are settled promises: a rejection skips the rest of an async body. *)
Definition M (A : Type) : Type := World → Settled A * World.

#[global] Instance M_ret : MRet M := λ A a w, (Fulfilled a, w).

#[global] Instance M_bind : MBind M := λ A B k c w,
  match c w with
  | (Fulfilled a, w') => k a w'
  | (Rejected e, w') => (Rejected e, w')
  end.

Definition log (c : Call) (w : World) : World :=
  mkWorld (data w) (timers w) (next_id w) (pending w) (stale w) (cleanup w)
          (unhandled w) (trace w ++ [c]).

(** [await p] for a promise that settles as [r]. *)
Definition await {A} (r : Settled A) : M A := λ w, (r, w).

(** The setter of the state hook: the new value replaces the old one. *)
Definition setData (portfolio : list Stock) : M unit := λ w,
  let w := log (CallSetData portfolio) w in
  (Fulfilled tt,
   mkWorld portfolio (timers w) (next_id w) (pending w) (stale w) (cleanup w)
           (unhandled w) (trace w)).

(** [setInterval(cb, delay)]: the host registers the timer and returns its
    id. *)
Definition setInterval (cb : Callback) (delay : Z) : M nat := λ w,
  let id := next_id w in
  let w := log (CallSetInterval cb delay id) w in
  (Fulfilled id,
   mkWorld (data w) (<[id := (cb, delay)]> (timers w)) (S id) (pending w)
           (stale w) (cleanup w) (unhandled w) (trace w)).

(** [clearInterval(id)]. *)
Definition clearInterval (id : nat) : M unit := λ w,
  let w := log (CallClearInterval id) w in
  (Fulfilled tt,
   mkWorld (data w) (delete id (timers w)) (next_id w) (pending w) (stale w)
           (cleanup w) (unhandled w) (trace w)).

(** The body of [fetchAndSet], given how the awaited [fetchPortfolio()]
    settles:
<<
    const portfolio = await fetchPortfolio();
    setData(portfolio);
>> *)
Definition fetchAndSet (r : Settled (list Stock)) : M unit :=
  portfolio ← await r;
  setData portfolio.

(** Calling [fetchAndSet()]: it runs up to the [await], where the request is
    out and the call is suspended.  The promise it returns is dropped by both
    callers. *)
Definition call_fetchAndSet (w : World) : World :=
  let w := log CallFetchPortfolio w in
  mkWorld (data w) (timers w) (next_id w) (S (pending w)) (stale w) (cleanup w)
          (unhandled w) (trace w).

Definition interval_ms : Z := 15000.

(** The effect of [useEffect(..., [])]:
<<
    fetchAndSet();
    const interval = setInterval(fetchAndSet, 15000);
    return () => clearInterval(interval);
>>
    The returned closure is kept as the id it captured. *)
Definition effect (w : World) : World :=
  let w := call_fetchAndSet w in
  let '(_, w1) := setInterval FetchAndSet interval_ms w in
  mkWorld (data w1) (timers w1) (next_id w1) (pending w1) (stale w1)
          (Some (next_id w)) (unhandled w1) (trace w1).

(** Running the cleanup closure [() => clearInterval(interval)]. *)
Definition run_cleanup (w : World) : World :=
  match cleanup w with
  | Some interval =>
      let '(_, w1) := clearInterval interval w in
      mkWorld (data w1) (timers w1) (next_id w1) (pending w1) (stale w1) None
              (unhandled w1) (trace w1)
  | None => w
  end.

(** A component that mounts is a new instance: its state hook starts from
    [useState<StockData[]>([])], whatever an earlier instance held. *)
Definition new_instance (w : World) : World :=
  mkWorld [] (timers w) (next_id w) (pending w) (stale w) (cleanup w)
          (unhandled w) (trace w).

(** Teardown cancels no fetch: the calls of [fetchAndSet] that are suspended
    stay suspended, now on behalf of an instance that is gone. *)
Definition orphan (w : World) : World :=
  mkWorld (data w) (timers w) (next_id w) 0 (stale w + pending w) (cleanup w)
          (unhandled w) (trace w).

(** A suspended call of [fetchAndSet] resumes when its fetch settles.  A
    rejection of the promise of [fetchAndSet] has no handler. *)
Definition settle (r : Settled (list Stock)) (w : World) : World :=
  match pending w with
  | O => w
  | S n =>
      let w := mkWorld (data w) (timers w) (next_id w) n (stale w) (cleanup w)
                       (unhandled w) (trace w) in
      match fetchAndSet r w with
      | (Fulfilled _, w') => w'
      | (Rejected e, w') =>
          mkWorld (data w') (timers w') (next_id w') (pending w') (stale w')
                  (cleanup w') (unhandled w' ++ [e]) (trace w')
      end
  end.

(** The same for a call suspended on behalf of an instance that was torn
    down: the body runs as always, but the [setData] it calls is the setter
    of the instance that is gone, and React drops the update, so the state of
    the present instance is not touched. *)
Definition settle_stale (r : Settled (list Stock)) (w : World) : World :=
  match stale w with
  | O => w
  | S n =>
      let w0 := mkWorld (data w) (timers w) (next_id w) (pending w) n
                        (cleanup w) (unhandled w) (trace w) in
      match fetchAndSet r w0 with
      | (Fulfilled _, w') =>
          mkWorld (data w) (timers w') (next_id w') (pending w') (stale w')
                  (cleanup w') (unhandled w') (trace w')
      | (Rejected e, w') =>
          mkWorld (data w') (timers w') (next_id w') (pending w') (stale w')
                  (cleanup w') (unhandled w' ++ [e]) (trace w')
      end
  end.

(** What can happen to the component. *)
Inductive Event : Type :=
| Mount                                   (* first render committed: the effect runs *)
| Tick (id : nat)                         (* the host fires interval [id] *)
| Settle (r : Settled (list Stock))       (* an outstanding fetch settles *)
| SettleStale (r : Settled (list Stock))  (* a fetch of a torn-down instance settles *)
| Unmount.                                (* teardown: the cleanup runs *)

Definition step (w : World) (ev : Event) : World :=
  match ev with
  | Mount => effect (new_instance w)
  | Tick id =>
      match timers w !! id with
      | Some (FetchAndSet, _) => call_fetchAndSet w
      | None => w
      end
  | Settle r => settle r w
  | SettleStale r => settle_stale r w
  | Unmount => orphan (run_cleanup w)
  end.

Definition run (w : World) (evs : list Event) : World := foldl step w evs.

(** Events between mount and teardown. *)
Definition running (ev : Event) : Prop :=
  match ev with
  | Tick _ | Settle _ | SettleStale _ => True
  | Mount | Unmount => False
  end.

Definition set_data_calls (t : list Call) : list (list Stock) :=
  omap (λ c, match c with CallSetData p => Some p | _ => None end) t.

Definition set_interval_calls (t : list Call) : list (Callback * Z * nat) :=
  omap (λ c, match c with
             | CallSetInterval cb d id => Some (cb, d, id)
             | _ => None
             end) t.

Definition clear_interval_calls (t : list Call) : list nat :=
  omap (λ c, match c with CallClearInterval id => Some id | _ => None end) t.

End Component.

Arguments Fulfilled {Err A}.
Arguments Rejected {Err A}.
Arguments World : clear implicits.
Arguments Event : clear implicits.
Arguments Call : clear implicits.

End Component.

(** The props the component gives to [<Pie>]. *)
Module Pie.
Record props (num : Type) : Type := mk {
  data : list (ChartEntry.t num);
  dataKey : string;
  nameKey : string;
  outerRadius : Z;
  fill : string
}.
Arguments mk {num}.
Arguments data {num}.
Arguments dataKey {num}.
Arguments nameKey {num}.
Arguments outerRadius {num}.
Arguments fill {num}.

(** The number a slice is sized by: [entry[dataKey]]. *)
Definition value {num} (p : props num) (e : ChartEntry.t num) : option num :=
  ChartEntry.get (dataKey p) e.

Definition values {num} (p : props num) : list (option num) :=
  value p <$> data p.
End Pie.

Section Render.
Context {num info : Type}.
Variable add : num → num → num.
Variable zero : num.

(** [<Pie data={chartData} dataKey="investment" nameKey="name"
     outerRadius={100} fill="#8884d8" ...>]. *)
Definition pie (data : list (StockData.t num info)) : Pie.props num :=
  {| Pie.data := chartData add zero data;
     Pie.dataKey := "investment";
     Pie.nameKey := "name";
     Pie.outerRadius := 100;
     Pie.fill := "#8884d8" |}.
End Render.

(** ** What the component renders from the aggregation *)

(** The palette of the pie (the [COLORS] constant of the component). *)
Definition COLORS : list string :=
  [ "#6366f1"; "#22c55e"; "#f97316"; "#e11d48"; "#0ea5e9"; "#F4C2C2" ].

(** The props of one [<Cell>].  [fill] is an array read, which yields
    [undefined] out of range. *)
Module Cell.
Record props : Type := mk {
  key : string;
  fill : option string
}.
End Cell.

(** One [<tr>] of the sector summary table: its React key and the content
    of its five cells; the last cell also has a class. *)
Module SummaryRow.
Record t : Type := mk {
  key : nat;
  sector : string;
  purchasePrice : string;
  investment : string;
  presentValue : string;
  gainLoss : string;
  gainLossClass : string
}.
End SummaryRow.

Section Rendering.

Context {num info : Type}.
Variable add : num → num → num.
Variable zero : num.

(** [x.toFixed(2)] and [x >= 0] are operations of the runtime's numbers;
    they are taken as given. *)
Variable toFixed2 : num → string.
Variable ge_zero : num → bool.

(** The children of [<Pie>]:
<<
    chartData.map((entry, index) => (
      <Cell key={`cell-${index}`} fill={COLORS[index % COLORS.length]} />))
>> *)
Definition cells (data : list (StockData.t num info)) : list Cell.props :=
  imap (λ index _,
          {| Cell.key := "cell-" +:+ pretty index;
             Cell.fill := COLORS !! (index mod length COLORS) |})
       (chartData add zero data).

(** The class of the [<span>] around a gain/loss figure of the summary
    table: [summary.gainLoss >= 0 ? "text-green-400" : "text-red-400"]. *)
Definition gainLossColor (value : num) : string :=
  if ge_zero value then "text-green-400" else "text-red-400".

(** The body of the sector summary table:
    [Object.entries(groupedBySector).map(([sector, summary], idx) => ...)]. *)
Definition summaryRows (data : list (StockData.t num info)) : list SummaryRow.t :=
  imap (λ idx (p : string * Summary.t num),
          {| SummaryRow.key := idx;
             SummaryRow.sector := p.1;
             SummaryRow.purchasePrice := toFixed2 (Summary.purchasePrice p.2);
             SummaryRow.investment := toFixed2 (Summary.investment p.2);
             SummaryRow.presentValue := toFixed2 (Summary.presentValue p.2);
             SummaryRow.gainLoss := toFixed2 (Summary.gainLoss p.2);
             SummaryRow.gainLossClass := gainLossColor (Summary.gainLoss p.2) |})
       (Js.entries (groupedBySector add zero data)).

(** *** Reference notions *)

(** The sum of a field over the chart entries, [zero + x1 + x2 + ...]. *)
Definition chart_total (f : ChartEntry.t num → num)
    (es : list (ChartEntry.t num)) : num :=
  foldl (λ a e, add a (f e)) zero es.

End Rendering.

(** The elements of a list in the order of their first occurrence. *)
Fixpoint first_occurrences (l : list string) : list string :=
  match l with
  | [] => []
  | k :: l' => k :: filter (λ k', k' ≠ k) (first_occurrences l')
  end.

(** The sectors of a list of holdings that can become own keys of the
    accumulator. *)
Definition own_sectors {num info} (data : list (StockData.t num info))
    : list string :=
  filter (λ k, Js.inherited k = false) (StockData.sector <$> data).

(** The numeric value a key is ordered by in [Object.entries]. *)
Definition index_of (k : string) : N := default 0%N (Js.array_index k).

(** The number of [fetchPortfolio()] calls in a trace. *)
Definition fetch_calls {num info} (t : list (Component.Call num info)) : nat :=
  length (omap (λ c, match c with
                     | Component.CallFetchPortfolio => Some tt
                     | _ => None
                     end) t).

(** Every fetch that was started is suspended (for the present instance or
    for one that was torn down), or ended in one [setData] call, or ended in
    one unobserved rejection. *)
Definition accounted {num info Err} (w : Component.World num info Err) : Prop :=
  fetch_calls (Component.trace w) =
  Component.pending w + Component.stale w
  + length (Component.set_data_calls (Component.trace w))
  + length (Component.unhandled w).

(** The lists the fetches of a sequence of events were fulfilled with, and
    the reasons they were rejected with, in order. *)
Definition fulfilled_lists {num info Err}
    (evs : list (Component.Event num info Err))
    : list (list (StockData.t num info)) :=
  omap (λ ev, match ev with
              | Component.Settle (Component.Fulfilled p)
              | Component.SettleStale (Component.Fulfilled p) => Some p
              | _ => None
              end) evs.

Definition rejected_reasons {num info Err}
    (evs : list (Component.Event num info Err)) : list Err :=
  omap (λ ev, match ev with
              | Component.Settle (Component.Rejected e)
              | Component.SettleStale (Component.Rejected e) => Some e
              | _ => None
              end) evs.

(** One whole life of an instance, and a history made of whole lives. *)
Definition life {num info Err} (evs : list (Component.Event num info Err))
    : list (Component.Event num info Err) :=
  Component.Mount :: evs ++ [Component.Unmount].

Definition lives {num info Err}
    (past : list (list (Component.Event num info Err)))
    : list (Component.Event num info Err) :=
  concat (life <$> past).

(** ** A sample portfolio over the integers *)

Module Sample.

Definition holding (name sector : string) (purchasePrice investment
    presentValue gainLoss : Z) : StockData.t Z unit :=
  {| StockData.name := name;
     StockData.exchange := "NSE";
     StockData.quantity := 1%Z;
     StockData.purchasePrice := purchasePrice;
     StockData.cmp := presentValue;
     StockData.investment := investment;
     StockData.presentValue := presentValue;
     StockData.gainLoss := gainLoss;
     StockData.peRatio := tt;
     StockData.latestEarnings := tt;
     StockData.sector := sector |}.

Definition portfolio : list (StockData.t Z unit) :=
  [ holding "Infosys" "IT" 1500 3000 3300 300;
    holding "HDFC Bank" "Financials" 1600 1600 1500 (-100);
    holding "TCS" "IT" 3500 3500 3600 100 ].

(** The same holdings with every field the aggregation does not read
    changed. *)
Definition relabelled : list (StockData.t Z unit) :=
  [ StockData.mk "A" "BSE" 7%Z 1500%Z 11%Z 3000%Z 3300%Z 300%Z tt tt "IT";
    StockData.mk "B" "BSE" 8%Z 1600%Z 12%Z 1600%Z 1500%Z (-100)%Z tt tt "Financials";
    StockData.mk "C" "BSE" 9%Z 3500%Z 13%Z 3500%Z 3600%Z 100%Z tt tt "IT" ].

(** Sectors that differ in case or white space, and the empty sector. *)
Definition unnormalised : list (StockData.t Z unit) :=
  [ holding "a" "IT" 1 1 1 0; holding "b" "it" 2 2 2 0;
    holding "c" " IT" 3 3 3 0; holding "d" "" 4 4 4 0;
    holding "e" "IT" 5 5 5 0 ].

(** Holdings whose sector string is the name of a property every object
    inherits. *)
Definition constructor_holding : StockData.t Z unit :=
  holding "Larsen" "constructor" 10 20 30 10.

Definition toString_pair : list (StockData.t Z unit) :=
  [ holding "x" "toString" 1 2 3 1; holding "y" "toString" 4 5 6 1 ].

(** Sectors named by numbers, among others. *)
Definition numbered : list (StockData.t Z unit) :=
  [ holding "a" "IT" 1 1 1 0; holding "b" "10" 2 2 2 0;
    holding "c" "Financials" 3 3 3 0; holding "d" "9" 4 4 4 0;
    holding "e" "IT" 5 5 5 0; holding "f" "valueOf" 6 6 6 0 ].

(** A mounted component whose first poll was answered and whose timer has
    fired once. *)
Definition mounted : Component.World Z unit string :=
  Component.run (Component.step Component.initial Component.Mount)
    [ Component.Settle (Component.Fulfilled portfolio); Component.Tick 0 ].

(** The first poll answered, the second still in flight. *)
Definition in_flight : list (Component.Event Z unit string) :=
  [ Component.Settle (Component.Fulfilled portfolio); Component.Tick 0 ].

(** Holdings over the doubles of the runtime.  The three amounts are the
    doubles that the literals 0.1, 0.2 and 0.3 denote. *)
Definition priced (x : float) : StockData.t float unit :=
  StockData.mk "n" "NSE" 1%float x x x x 0%float tt tt "IT".

Definition tenth : list (StockData.t float unit) :=
  [ priced 0x1.999999999999ap-4%float ].

Definition fifth_and_three_tenths : list (StockData.t float unit) :=
  [ priced 0x1.999999999999ap-3%float; priced 0x1.3333333333333p-2%float ].

(** A life of the component between mount and teardown: two polls, the
    first answered, the second failed. *)
Definition events : list (Component.Event Z unit string) :=
  [ Component.Settle (Component.Fulfilled portfolio);
    Component.Tick 0;
    Component.Settle (Component.Rejected "503") ].

End Sample.

(** * Properties *)

(** ** Own properties of an object *)

Module JsFacts.
Import Js.

Section Obj.
Context {V : Type}.
Implicit Types (o : Obj V) (k : string) (v : V).

Lemma get_own_set_own_eq k v o : get_own k (set_own k v o) = Some v.
Proof.
  induction o as [|[k' v'] o IH]; simpl.
  - by rewrite decide_True.
  - destruct (decide (k = k')) as [->|Hne]; simpl.
    + by rewrite decide_True.
    + by rewrite decide_False.
Qed.

Lemma get_own_set_own_ne k k' v o :
  k ≠ k' → get_own k' (set_own k v o) = get_own k' o.
Proof.
  intros Hne. induction o as [|[k0 v0] o IH]; simpl.
  - by rewrite decide_False.
  - destruct (decide (k = k0)) as [->|Hne0]; simpl.
    + by rewrite !decide_False by done.
    + by rewrite IH.
Qed.

Lemma set_own_set_own k v v' o :
  set_own k v (set_own k v' o) = set_own k v o.
Proof.
  induction o as [|[k0 v0] o IH]; simpl.
  - by rewrite decide_True.
  - destruct (decide (k = k0)) as [->|Hne]; simpl.
    + by rewrite decide_True.
    + by rewrite decide_False, IH.
Qed.

Lemma elem_of_keys k o : k ∈ keys o ↔ is_Some (get_own k o).
Proof.
  unfold keys. induction o as [|[k0 v0] o IH]; simpl.
  - split; [by intros ?%elem_of_nil | by intros [? ?]].
  - rewrite elem_of_cons. destruct (decide (k = k0)) as [->|Hne].
    + split; eauto.
    + rewrite IH. split; [by intros [?|?]|by right].
Qed.

Lemma not_elem_of_keys k o : k ∉ keys o ↔ get_own k o = None.
Proof. rewrite elem_of_keys, eq_None_not_Some. done. Qed.

Lemma keys_set_own k v o :
  keys (set_own k v o) =
    match get_own k o with Some _ => keys o | None => keys o ++ [k] end.
Proof.
  unfold keys. induction o as [|[k0 v0] o IH]; simpl; [done|].
  destruct (decide (k = k0)) as [->|Hne]; simpl; [done|].
  fold (fmap (M:=list) (@fst string V)). rewrite IH.
  by destruct (get_own k o).
Qed.

Lemma NoDup_keys_set_own k v o : NoDup (keys o) → NoDup (keys (set_own k v o)).
Proof.
  intros Hnd. rewrite keys_set_own.
  destruct (get_own k o) eqn:Hk; [done|].
  apply NoDup_app. split_and!; [done| |apply NoDup_singleton].
  intros x Hx ->%list_elem_of_singleton.
  by apply not_elem_of_keys in Hk.
Qed.

Lemma get_own_Some_elem_of k v o : get_own k o = Some v → (k, v) ∈ o.
Proof.
  induction o as [|[k0 v0] o IH]; simpl; [done|].
  destruct (decide (k = k0)) as [->|Hne].
  - intros [= ->]. left.
  - intros H. right. auto.
Qed.

Lemma elem_of_get_own k v o :
  NoDup (keys o) → (k, v) ∈ o → get_own k o = Some v.
Proof.
  unfold keys. induction o as [|[k0 v0] o IH]; simpl.
  - by intros _ ?%elem_of_nil.
  - intros [Hk0 Hnd]%NoDup_cons [Heq|Hin]%elem_of_cons.
    + injection Heq as -> ->. by rewrite decide_True.
    + destruct (decide (k = k0)) as [->|Hne]; [|auto].
      exfalso. apply Hk0. apply list_elem_of_fmap. by exists (k0, v).
Qed.

(** [Object.entries] lists the own properties, each once. *)
Lemma entries_Permutation o : entries o ≡ₚ o.
Proof.
  unfold entries. rewrite merge_sort_Permutation.
  induction o as [|[k v] o IH]; [done|].
  rewrite !filter_cons; simpl.
  destruct (is_index k) eqn:Hk.
  - rewrite decide_True, decide_False by done. simpl. by f_equiv.
  - rewrite decide_False, decide_True by done.
    rewrite <- Permutation_middle. by f_equiv.
Qed.

End Obj.

(** Array indices first, in numeric order; then the other keys as created. *)
Example entries_order :
  entries [("IT", 1); ("10", 2); ("Financials", 3); ("9", 4); ("07", 5)]
  = [("9", 4); ("10", 2); ("IT", 1); ("Financials", 3); ("07", 5)].
Proof. reflexivity. Qed.

End JsFacts.

(** ** The reducer and the aggregation *)

Section AggregationFacts.

Context {num info : Type}.
Variable add : num → num → num.
Variable zero : num.

Local Abbreviation Stock := (StockData.t num info).
Local Abbreviation Totals := (Summary.t num).
Local Abbreviation grouped := (groupedBySector add zero).
Local Abbreviation sum_of := (total add zero).

Implicit Types (acc : Js.Obj Totals) (stock h : Stock) (data : list Stock)
  (k : string) (s : Totals).

(** After the guard, [acc[k]] is an object: the four [+=] never read a field
    of [undefined]. *)
Lemma reducer_target_truthy acc k :
  Js.truthy (Js.Get (ensure zero acc k) k) = true.
Proof.
  unfold ensure. destruct (Js.truthy (Js.Get acc k)) eqn:Ht; simpl; [done|].
  unfold Js.Get. by rewrite JsFacts.get_own_set_own_eq.
Qed.

(** It stays one through each [+=]. *)
Lemma compound_assign_keeps_target upd acc k :
  Js.truthy (Js.Get acc k) = true →
  Js.truthy (Js.Get (compound_assign upd acc k) k) = true.
Proof.
  intros Ht. unfold compound_assign.
  destruct (Js.Get acc k) eqn:Hg; [done| |by rewrite Hg].
  unfold Js.Get. by rewrite JsFacts.get_own_set_own_eq.
Qed.

Lemma compound_assign_own upd acc k s :
  Js.get_own k acc = Some s →
  compound_assign upd acc k = Js.set_own k (upd s) acc.
Proof. intros H. unfold compound_assign, Js.Get. by rewrite H. Qed.

Lemma compound_assign_builtin upd acc k :
  Js.get_own k acc = None → Js.inherited k = true →
  compound_assign upd acc k = acc.
Proof. intros H Hi. unfold compound_assign, Js.Get. by rewrite H, Hi. Qed.

(** The four statements on an own summary amount to [accumulate]. *)
Lemma assignments_own acc k s stock :
  Js.get_own k acc = Some s →
  compound_assign (add_gainLoss add (StockData.gainLoss stock))
    (compound_assign (add_purchasePrice add (StockData.purchasePrice stock))
       (compound_assign (add_presentValue add (StockData.presentValue stock))
          (compound_assign (add_investment add (StockData.investment stock))
             acc k) k) k) k
  = Js.set_own k (accumulate add s stock) acc.
Proof.
  intros H. unfold accumulate.
  rewrite (compound_assign_own _ acc k s H).
  rewrite (compound_assign_own _ _ k _ (JsFacts.get_own_set_own_eq _ _ _)).
  rewrite JsFacts.set_own_set_own.
  rewrite (compound_assign_own _ _ k _ (JsFacts.get_own_set_own_eq _ _ _)).
  rewrite JsFacts.set_own_set_own.
  rewrite (compound_assign_own _ _ k _ (JsFacts.get_own_set_own_eq _ _ _)).
  by rewrite JsFacts.set_own_set_own.
Qed.

(** The reducer, case by case on what [acc[stock.sector]] is. *)
Lemma reducer_cases acc stock :
  reducer add zero acc stock =
    let k := StockData.sector stock in
    match Js.get_own k acc with
    | Some s => Js.set_own k (accumulate add s stock) acc
    | None =>
        if Js.inherited k then acc
        else Js.set_own k (accumulate add (fresh zero) stock) acc
    end.
Proof.
  unfold reducer. simpl. set (k := StockData.sector stock).
  destruct (Js.get_own k acc) as [s|] eqn:Hk.
  - assert (ensure zero acc k = acc) as ->.
    { unfold ensure, Js.Get. by rewrite Hk. }
    by apply assignments_own.
  - destruct (Js.inherited k) eqn:Hi.
    + assert (ensure zero acc k = acc) as ->.
      { unfold ensure, Js.Get. by rewrite Hk, Hi. }
      by do 4 (rewrite (compound_assign_builtin _ acc k) by done).
    + assert (ensure zero acc k = Js.set_own k (fresh zero) acc) as ->.
      { unfold ensure, Js.Get. by rewrite Hk, Hi. }
      rewrite (assignments_own _ k (fresh zero));
        [|apply JsFacts.get_own_set_own_eq].
      by rewrite JsFacts.set_own_set_own.
Qed.

Lemma groupedBySector_snoc data stock :
  grouped (data ++ [stock]) = reducer add zero (grouped data) stock.
Proof. unfold groupedBySector. by rewrite foldl_app. Qed.

Lemma members_snoc k data h :
  members k (data ++ [h]) =
    if decide (StockData.sector h = k) then members k data ++ [h]
    else members k data.
Proof.
  unfold members. rewrite filter_app, filter_cons, filter_nil.
  case_decide; [done|]. by rewrite app_nil_r.
Qed.

Lemma total_snoc (f : Stock → num) l h :
  sum_of f (l ++ [h]) = add (sum_of f l) (f h).
Proof. unfold total. by rewrite foldl_app. Qed.

Lemma totals_snoc l h :
  totals add zero (l ++ [h]) = accumulate add (totals add zero l) h.
Proof. unfold totals, accumulate. by rewrite !total_snoc. Qed.

Lemma totals_nil : totals add zero (@nil Stock) = fresh zero.
Proof. done. Qed.

(** What the aggregation holds under each key. *)
Lemma get_own_groupedBySector data k :
  Js.get_own k (grouped data) =
    if Js.inherited k then None
    else match members k data with
         | [] => None
         | _ :: _ => Some (totals add zero (members k data))
         end.
Proof.
  induction data as [|h data IH] using rev_ind.
  - simpl. by destruct (Js.inherited k).
  - rewrite groupedBySector_snoc, reducer_cases, members_snoc. simpl.
    destruct (decide (StockData.sector h = k)) as [->|Hne].
    + rewrite IH. destruct (Js.inherited _) eqn:Hi.
      * by rewrite IH.
      * destruct (members _ data) as [|m ms] eqn:Hm.
        -- by rewrite JsFacts.get_own_set_own_eq.
        -- rewrite JsFacts.get_own_set_own_eq, <- totals_snoc. done.
    + assert (Js.get_own k (Js.set_own (StockData.sector h)
                (accumulate add (fresh zero) h) (grouped data))
              = Js.get_own k (grouped data)) as Hfresh
        by by apply JsFacts.get_own_set_own_ne.
      destruct (Js.get_own (StockData.sector h) (grouped data)).
      * by rewrite JsFacts.get_own_set_own_ne.
      * destruct (Js.inherited (StockData.sector h)); [done|].
        by rewrite Hfresh.
Qed.

Lemma NoDup_keys_groupedBySector data : NoDup (Js.keys (grouped data)).
Proof.
  induction data as [|h data IH] using rev_ind.
  - apply NoDup_nil_2.
  - rewrite groupedBySector_snoc, reducer_cases. simpl.
    destruct (Js.get_own _ _); [by apply JsFacts.NoDup_keys_set_own|].
    destruct (Js.inherited _); [done|by apply JsFacts.NoDup_keys_set_own].
Qed.

Lemma members_nil_iff k data :
  members k data = [] ↔ k ∉ StockData.sector <$> data.
Proof.
  unfold members. induction data as [|h data IH]; simpl.
  - split; [intros _; apply not_elem_of_nil|done].
  - rewrite filter_cons, not_elem_of_cons, <- IH.
    case_decide; [by split; [|intros [? _]]|].
    split; [by split|by intros [_ ?]].
Qed.

(** The keys of the output: the sectors of the input, except those that
    collide with a name inherited from [Object.prototype]. *)
Lemma elem_of_keys_groupedBySector data k :
  k ∈ Js.keys (grouped data) ↔
  k ∈ StockData.sector <$> data ∧ Js.inherited k = false.
Proof.
  rewrite JsFacts.elem_of_keys, get_own_groupedBySector.
  destruct (Js.inherited k).
  - split; [by intros [? ?]|by intros [_ ?]].
  - destruct (members k data) eqn:Hm.
    + apply members_nil_iff in Hm. split; [by intros [? ?]|by intros [? _]].
    + split; [|eauto]. intros _. split; [|done].
      destruct (decide (k ∈ StockData.sector <$> data)) as [|Hn]; [done|].
      apply members_nil_iff in Hn. congruence.
Qed.

(** *** Per-sector totals *)

(** C1.  Every entry [(k, s)] of the aggregation output carries, in each of
    its four fields (purchase price, investment, present value, gain/loss),
    the sum of that field over exactly the holdings of the input whose
    sector is [k]. *)
Theorem groupedBySector_sums_members data k s :
  (k, s) ∈ grouped data →
  Summary.purchasePrice s = sum_of StockData.purchasePrice (members k data)
  ∧ Summary.investment s = sum_of StockData.investment (members k data)
  ∧ Summary.presentValue s = sum_of StockData.presentValue (members k data)
  ∧ Summary.gainLoss s = sum_of StockData.gainLoss (members k data).
Proof.
  intros Hin.
  apply JsFacts.elem_of_get_own in Hin; [|apply NoDup_keys_groupedBySector].
  rewrite get_own_groupedBySector in Hin.
  destruct (Js.inherited k); [done|].
  destruct (members k data); [done|].
  by injection Hin as <-.
Qed.

(** The sectors of the input that do not collide with an inherited name are
    exactly the keys of the output. *)
Lemma keys_groupedBySector_set data :
  list_to_set (Js.keys (grouped data)) =@{gset string}
  list_to_set (filter (λ k, Js.inherited k = false) (StockData.sector <$> data)).
Proof.
  apply set_eq. intros k.
  rewrite !elem_of_list_to_set, elem_of_keys_groupedBySector.
  by rewrite list_elem_of_filter, (comm and).
Qed.

(** Two holdings whose sectors are no inherited names end up in one group
    if and only if their sector strings are equal. *)
Lemma same_group_iff_same_sector h1 h2 :
  Js.inherited (StockData.sector h1) = false →
  Js.inherited (StockData.sector h2) = false →
  (∃ k, grouped [h1; h2] = [(k, totals add zero [h1; h2])])
  ↔ StockData.sector h1 = StockData.sector h2.
Proof.
  intros Hi1 Hi2. unfold groupedBySector. simpl.
  rewrite !reducer_cases. simpl. rewrite Hi1.
  destruct (decide (StockData.sector h2 = StockData.sector h1)) as [Heq|Hne].
  - unfold Js.get_own, Js.set_own. rewrite !decide_True by done.
    split; [done|]. intros _. by exists (StockData.sector h1).
  - unfold Js.get_own, Js.set_own. rewrite decide_False by done.
    rewrite Hi2, decide_False by done.
    split; [by intros [? ?]|]. intros Heq. by destruct Hne.
Qed.

(** *** The chart data *)

(** C6.  The pie-chart data has exactly one entry per sector key of the
    aggregation output (no name occurs twice, and the names with their
    investment values are those of the output entries), and the pie is given
    that data with [investment] as its data key, so that the number of a
    slice is the aggregated investment of its sector. *)
Theorem chartData_one_entry_per_sector data :
  NoDup (ChartEntry.name <$> chartData add zero data)
  ∧ (∀ k v,
       (∃ e, e ∈ chartData add zero data
             ∧ ChartEntry.name e = k ∧ ChartEntry.investment e = v)
       ↔ (∃ s, (k, s) ∈ grouped data ∧ Summary.investment s = v))
  ∧ length (chartData add zero data) = length (grouped data)
  ∧ Pie.data (pie add zero data) = chartData add zero data
  ∧ Pie.dataKey (pie add zero data) = "investment"
  ∧ ∀ e, Pie.value (pie add zero data) e = Some (ChartEntry.investment e).
Proof.
  split_and!; try done.
  - unfold chartData. rewrite <- list_fmap_compose.
    change (NoDup ((Js.entries (grouped data)).*1)).
    rewrite JsFacts.entries_Permutation. apply NoDup_keys_groupedBySector.
  - intros k v. unfold chartData. split.
    + intros (e & [[k' s] [-> Hin]]%list_elem_of_fmap & <- & <-).
      rewrite JsFacts.entries_Permutation in Hin. by exists s.
    + intros (s & Hin & <-).
      exists (ChartEntry.mk k (Summary.investment s) (Summary.purchasePrice s)
                (Summary.presentValue s) (Summary.gainLoss s)).
      split; [|done].
      apply list_elem_of_fmap. exists (k, s). split; [done|].
      by rewrite JsFacts.entries_Permutation.
  - unfold chartData. by rewrite length_fmap, JsFacts.entries_Permutation.
Qed.

(** *** The empty portfolio *)

(** C9.  On the empty list of holdings, which is the state the component
    starts in, the aggregation is the empty object and the chart data is the
    empty list. *)
Theorem empty_portfolio_aggregation (Err : Type) :
  Component.data (@Component.initial num info Err) = []
  ∧ grouped (@nil Stock) = []
  ∧ chartData add zero (@nil Stock) = []
  ∧ grouped (Component.data (@Component.initial num info Err)) = []
  ∧ chartData add zero (Component.data (@Component.initial num info Err)) = [].
Proof. done. Qed.

(** *** Fields the aggregation reads *)

Lemma reducer_same_fields acc (a b : Stock) :
  same_aggregated_fields a b →
  reducer add zero acc a = reducer add zero acc b.
Proof.
  intros (Hs & Hp & Hi & Hv & Hg). unfold reducer.
  by rewrite Hs, Hp, Hi, Hv, Hg.
Qed.

(** C10.  Two input lists that agree element by element on [sector],
    [purchasePrice], [investment], [presentValue] and [gainLoss] have equal
    aggregations, whatever their other fields are. *)
Theorem groupedBySector_reads_five_fields (xs ys : list Stock) :
  Forall2 same_aggregated_fields xs ys → grouped xs = grouped ys.
Proof.
  unfold groupedBySector. generalize (@nil (string * Totals)).
  intros acc H. revert acc.
  induction H as [|a b xs ys Hab _ IH]; intros acc; simpl; [done|].
  by rewrite (reducer_same_fields acc a b Hab).
Qed.

End AggregationFacts.

(** ** The aggregation over exact arithmetic

    The laws of exact addition (associative, commutative, [zero] neutral on
    the right) are what the next results need; the doubles of the runtime do
    not satisfy the first one. *)

Section ExactArithmetic.

Context {num info : Type}.
Variable add : num → num → num.
Variable zero : num.

Hypothesis add_assoc : ∀ a b c, add a (add b c) = add (add a b) c.
Hypothesis add_comm : ∀ a b, add a b = add b a.
Hypothesis add_zero_r : ∀ a, add a zero = a.

Local Abbreviation Stock := (StockData.t num info).
Local Abbreviation Totals := (Summary.t num).
Local Abbreviation grouped := (groupedBySector add zero).

Lemma total_app (f : Stock → num) xs ys :
  total add zero f (xs ++ ys) = add (total add zero f xs) (total add zero f ys).
Proof.
  induction ys as [|y ys IH] using rev_ind.
  - by rewrite app_nil_r, add_zero_r.
  - by rewrite app_assoc, !total_snoc, IH, add_assoc.
Qed.

Lemma totals_app (xs ys : list Stock) :
  totals add zero (xs ++ ys) = plus add (totals add zero xs) (totals add zero ys).
Proof. unfold totals, plus. simpl. by rewrite !total_app. Qed.

Lemma foldl_add_Permutation (f : Stock → num) xs ys a :
  xs ≡ₚ ys →
  foldl (λ a h, add a (f h)) a xs = foldl (λ a h, add a (f h)) a ys.
Proof.
  intros Hp. revert a.
  induction Hp as [|x xs ys _ IH|x y xs|xs ys zs _ IH1 _ IH2]; intros a; simpl.
  - done.
  - apply IH.
  - f_equal. by rewrite <- !add_assoc, (add_comm (f y)).
  - by rewrite IH1.
Qed.

Lemma totals_Permutation (xs ys : list Stock) :
  xs ≡ₚ ys → totals add zero xs = totals add zero ys.
Proof.
  intros Hp. unfold totals, total.
  f_equal; by apply foldl_add_Permutation.
Qed.

Lemma members_Permutation k (xs ys : list Stock) :
  xs ≡ₚ ys → members k xs ≡ₚ members k ys.
Proof. intros Hp. unfold members. by rewrite Hp. Qed.

(** C8.  Over exact arithmetic the aggregation is a list homomorphism: under
    every key, the aggregation of [xs ++ ys] holds the field-wise sum of what
    the aggregations of [xs] and of [ys] hold; and the totals under every key
    are the same for any permutation of the input. *)
Theorem groupedBySector_homomorphism (xs ys : list Stock) :
  (∀ k, Js.get_own k (grouped (xs ++ ys)) =
        pointwise_sum add (Js.get_own k (grouped xs)) (Js.get_own k (grouped ys)))
  ∧ (∀ zs, zs ≡ₚ xs → ∀ k, Js.get_own k (grouped zs) = Js.get_own k (grouped xs)).
Proof.
  split.
  - intros k. rewrite !get_own_groupedBySector.
    destruct (Js.inherited k); [done|].
    unfold members. rewrite filter_app. fold (members k xs) (members k ys).
    destruct (members k xs) as [|x mx] eqn:Hx;
      destruct (members k ys) as [|y my] eqn:Hy; simpl; try done.
    + by rewrite app_nil_r.
    + f_equal. apply (totals_app (x :: mx) (y :: my)).
  - intros zs Hp k. rewrite !get_own_groupedBySector.
    destruct (Js.inherited k); [done|].
    pose proof (members_Permutation k _ _ Hp) as Hm.
    rewrite (totals_Permutation _ _ Hm).
    destruct (members k zs), (members k xs); try done.
    + by apply Permutation_nil_cons in Hm.
    + symmetry in Hm. by apply Permutation_nil_cons in Hm.
Qed.

End ExactArithmetic.

(** ** The aggregation on the sample portfolio *)

Module SampleFacts.
Import Sample.

Local Abbreviation groupedZ := (groupedBySector Z.add 0%Z).

Example groupedBySector_portfolio :
  groupedZ portfolio =
    [ ("IT", Summary.mk 5000 6500 6900 400);
      ("Financials", Summary.mk 1600 1600 1500 (-100)) ]%Z.
Proof. reflexivity. Qed.

(** Sector strings are compared as they are: no case folding, no trimming,
    and the empty string is a key like any other. *)
Example groupedBySector_unnormalised :
  groupedZ unnormalised =
    [ ("IT", Summary.mk 6 6 6 0); ("it", Summary.mk 2 2 2 0);
      (" IT", Summary.mk 3 3 3 0); ("", Summary.mk 4 4 4 0) ]%Z.
Proof. reflexivity. Qed.

Lemma groupedBySector_sums_members_witness :
  ("IT", Summary.mk 5000 6500 6900 400)%Z ∈ groupedZ portfolio
  ∧ (5000 = total Z.add 0 StockData.purchasePrice (members "IT" portfolio)
     ∧ 6500 = total Z.add 0 StockData.investment (members "IT" portfolio)
     ∧ 6900 = total Z.add 0 StockData.presentValue (members "IT" portfolio)
     ∧ 400 = total Z.add 0 StockData.gainLoss (members "IT" portfolio))%Z.
Proof.
  assert (("IT", Summary.mk 5000 6500 6900 400)%Z ∈ groupedZ portfolio) as Hin
    by (vm_compute; apply list_elem_of_here).
  split; [exact Hin|].
  exact (groupedBySector_sums_members Z.add 0%Z portfolio "IT" _ Hin).
Defined.

Lemma groupedBySector_reads_five_fields_witness :
  Forall2 same_aggregated_fields portfolio relabelled
  ∧ groupedZ portfolio = groupedZ relabelled.
Proof.
  assert (Forall2 same_aggregated_fields portfolio relabelled) as Hsame
    by (repeat constructor).
  split; [exact Hsame|].
  exact (groupedBySector_reads_five_fields Z.add 0%Z portfolio relabelled Hsame).
Defined.

Lemma groupedBySector_homomorphism_witness :
  (∀ k, Js.get_own k (groupedZ (portfolio ++ unnormalised)) =
        pointwise_sum Z.add (Js.get_own k (groupedZ portfolio))
                            (Js.get_own k (groupedZ unnormalised)))
  ∧ (∀ k, Js.get_own k (groupedZ (reverse portfolio)) =
          Js.get_own k (groupedZ portfolio)).
Proof.
  pose proof (groupedBySector_homomorphism Z.add 0%Z
                Z.add_assoc Z.add_comm Z.add_0_r portfolio unnormalised)
    as [Hhom Hperm].
  split; [exact Hhom|].
  apply Hperm. apply reverse_Permutation.
Defined.

(** C2.  A holding whose sector is ["constructor"] leaves no key in the
    output: [acc["constructor"]] is the inherited [Object] function, which is
    truthy, so no own property is created and the four [+=] land on that
    function.  The keys of the output are then not the sectors of the
    input. *)
Theorem sector_constructor_has_no_key :
  StockData.sector <$> [constructor_holding] = ["constructor"]
  ∧ Js.Get (@nil (string * Summary.t Z)) "constructor" = Js.Builtin "constructor"
  ∧ groupedZ [constructor_holding] = []
  ∧ list_to_set (Js.keys (groupedZ [constructor_holding])) ≠@{gset string}
    list_to_set (StockData.sector <$> [constructor_holding])
  ∧ groupedZ (portfolio ++ [constructor_holding]) = groupedZ portfolio.
Proof.
  split_and!; try reflexivity.
  intros Heq. assert ("constructor" ∈@{gset string} ∅) as Hin; [|set_solver].
  change (∅ : gset string)
    with (list_to_set (Js.keys (groupedZ [constructor_holding])) : gset string).
  rewrite Heq. set_solver.
Qed.

(** C3.  Two holdings with the same sector string ["toString"] are gathered
    in no group at all, whereas two holdings with sector ["IT"] are gathered
    in one; the chart and the summary have no row for them. *)
Theorem sector_toString_forms_no_group :
  StockData.sector <$> toString_pair = ["toString"; "toString"]
  ∧ groupedZ toString_pair = []
  ∧ chartData Z.add 0%Z toString_pair = []
  ∧ (∀ k, Js.get_own k (groupedZ (portfolio ++ toString_pair)) =
          Js.get_own k (groupedZ portfolio)).
Proof. split_and!; reflexivity. Qed.

End SampleFacts.

(** ** The component: polling and the timer *)

Module ComponentFacts.
Import Component.

Section Polling.

Context {num info Err : Type}.

Local Abbreviation Stock := (StockData.t num info).
Local Abbreviation World := (Component.World num info Err).
Local Abbreviation Event := (Component.Event num info Err).

Implicit Types (w : World) (ev : Event) (evs : list Event)
  (portfolio : list Stock) (e : Err).

Lemma set_data_calls_app (t1 t2 : list (Call num info)) :
  set_data_calls (t1 ++ t2) = set_data_calls t1 ++ set_data_calls t2.
Proof. unfold set_data_calls. apply omap_app. Qed.

Lemma set_interval_calls_app (t1 t2 : list (Call num info)) :
  set_interval_calls (t1 ++ t2) = set_interval_calls t1 ++ set_interval_calls t2.
Proof. unfold set_interval_calls. apply omap_app. Qed.

Lemma clear_interval_calls_app (t1 t2 : list (Call num info)) :
  clear_interval_calls (t1 ++ t2) =
  clear_interval_calls t1 ++ clear_interval_calls t2.
Proof. unfold clear_interval_calls. apply omap_app. Qed.

(** C4.  When the awaited fetch rejects, [fetchAndSet] rejects with the same
    reason and does nothing else: [setData] is not called and the holdings
    state is what it was.  Nothing handles the rejection, and the data of
    the last successful poll stays in place. *)
Theorem fetch_failure_leaves_state e w :
  fetchAndSet (Rejected e) w = (Rejected e, w)
  ∧ data (step w (Settle (Rejected e))) = data w
  ∧ set_data_calls (trace (step w (Settle (Rejected e)))) =
    set_data_calls (trace w)
  ∧ unhandled (step (call_fetchAndSet w) (Settle (Rejected e))) =
    unhandled w ++ [e]
  ∧ ∀ portfolio,
      data (run (call_fetchAndSet (call_fetchAndSet w))
                [Settle (Fulfilled portfolio); Settle (Rejected e)])
      = portfolio.
Proof.
  split_and!; try done.
  - simpl. unfold settle. by destruct (pending w).
  - simpl. unfold settle. by destruct (pending w).
Qed.

(** C5.  When the awaited fetch fulfils with a list, [fetchAndSet] calls
    [setData] once, with that list, and the holdings state is then exactly
    that list, whatever the state was before. *)
Theorem successful_poll_replaces_state portfolio w :
  (fetchAndSet (Fulfilled portfolio) w).1 = Fulfilled tt
  ∧ data (fetchAndSet (Fulfilled portfolio) w).2 = portfolio
  ∧ trace (fetchAndSet (Fulfilled portfolio) w).2 =
    trace w ++ [CallSetData portfolio]
  ∧ data (step (call_fetchAndSet w) (Settle (Fulfilled portfolio))) = portfolio
  ∧ set_data_calls
      (trace (step (call_fetchAndSet w) (Settle (Fulfilled portfolio)))) =
    set_data_calls (trace w) ++ [portfolio]
  ∧ ∀ w', data (fetchAndSet (Fulfilled portfolio) w').2 =
          data (fetchAndSet (Fulfilled portfolio) w).2.
Proof.
  split_and!; try done.
  simpl. rewrite !set_data_calls_app. simpl. by rewrite app_nil_r.
Qed.

(** Between mount and teardown nothing touches the timers. *)
Lemma step_running_frame w ev :
  running ev →
  timers (step w ev) = timers w
  ∧ cleanup (step w ev) = cleanup w
  ∧ next_id (step w ev) = next_id w
  ∧ set_interval_calls (trace (step w ev)) = set_interval_calls (trace w)
  ∧ clear_interval_calls (trace (step w ev)) = clear_interval_calls (trace w).
Proof.
  destruct ev as [|id|r|r|]; simpl; try done; intros _.
  - destruct (timers w !! id) as [[[] d]|]; [|done].
    split_and!; try done; simpl.
    + by rewrite set_interval_calls_app, app_nil_r.
    + by rewrite clear_interval_calls_app, app_nil_r.
  - unfold settle. destruct (pending w); [done|].
    destruct r as [portfolio|e]; simpl; [|done].
    split_and!; try done.
    + by rewrite set_interval_calls_app, app_nil_r.
    + by rewrite clear_interval_calls_app, app_nil_r.
  - unfold settle_stale. destruct (stale w); [done|].
    destruct r as [portfolio|e]; simpl; [|done].
    split_and!; try done.
    + by rewrite set_interval_calls_app, app_nil_r.
    + by rewrite clear_interval_calls_app, app_nil_r.
Qed.

Lemma run_running_frame evs w :
  Forall running evs →
  timers (run w evs) = timers w
  ∧ cleanup (run w evs) = cleanup w
  ∧ next_id (run w evs) = next_id w
  ∧ set_interval_calls (trace (run w evs)) = set_interval_calls (trace w)
  ∧ clear_interval_calls (trace (run w evs)) = clear_interval_calls (trace w).
Proof.
  intros Hall. revert w.
  induction Hall as [|ev evs Hev _ IH]; intros w; [done|].
  simpl. destruct (IH (step w ev)) as (-> & -> & -> & -> & ->).
  by apply step_running_frame.
Qed.

(** One mount, from any state of the host: one timer is registered, under a
    fresh id, for [fetchAndSet] every [interval_ms]; the cleanup clears that
    id, once. *)
Lemma mount_unmount_cycle w evs :
  Forall running evs →
  let id := next_id w in
  let w1 := step w Mount in
  let w2 := run w1 evs in
  let w3 := step w2 Unmount in
  timers w2 = <[id := (FetchAndSet, interval_ms)]> (timers w)
  ∧ cleanup w2 = Some id
  ∧ set_interval_calls (trace w3) =
    set_interval_calls (trace w) ++ [(FetchAndSet, interval_ms, id)]
  ∧ clear_interval_calls (trace w2) = clear_interval_calls (trace w)
  ∧ clear_interval_calls (trace w3) = clear_interval_calls (trace w) ++ [id]
  ∧ timers w3 = delete id (timers w)
  ∧ cleanup w3 = None.
Proof.
  intros Hall. simpl.
  destruct (run_running_frame evs (effect (new_instance w)) Hall)
    as (Ht & Hc & Hn & Hs & Hcl).
  assert (cleanup (run (effect (new_instance w)) evs) = Some (next_id w))
    as Hcleanup by by rewrite Hc.
  split_and!.
  - by rewrite Ht.
  - done.
  - unfold run_cleanup. rewrite Hcleanup. simpl.
    rewrite set_interval_calls_app, Hs. simpl.
    rewrite !set_interval_calls_app. simpl. by rewrite !app_nil_r.
  - rewrite Hcl. simpl. rewrite !clear_interval_calls_app. simpl.
    by rewrite !app_nil_r.
  - unfold run_cleanup. rewrite Hcleanup. simpl.
    rewrite clear_interval_calls_app, Hcl. simpl.
    rewrite !clear_interval_calls_app. simpl. by rewrite !app_nil_r.
  - unfold run_cleanup. rewrite Hcleanup. simpl. rewrite Ht. simpl.
    by rewrite delete_insert_eq.
  - unfold run_cleanup. by rewrite Hcleanup.
Qed.

(** C7.  Over the life of the component (mount, then any fetches settling
    and timer firings, then teardown) there is a single interval timer; its
    period is 15000 ms, that is 15 seconds; each firing starts one
    fetch-and-replace cycle; and the teardown cancels it, by the one
    [clearInterval] call of the cleanup. *)
Theorem single_interval_timer evs :
  Forall running evs →
  let w2 : World := run (step initial Mount) evs in
  let w3 := step w2 Unmount in
  interval_ms = (15 * 1000)%Z
  ∧ timers w2 = {[ 0 := (FetchAndSet, 15000%Z) ]}
  ∧ set_interval_calls (trace w3) = [(FetchAndSet, 15000%Z, 0)]
  ∧ step w2 (Tick 0) = call_fetchAndSet w2
  ∧ (∀ portfolio,
       data (run w2 [Tick 0; Settle (Fulfilled portfolio)]) = portfolio)
  ∧ (∀ id, id ≠ 0 → step w2 (Tick id) = w2)
  ∧ clear_interval_calls (trace w2) = []
  ∧ clear_interval_calls (trace w3) = [0]
  ∧ timers w3 = ∅.
Proof.
  intros Hall.
  destruct (mount_unmount_cycle initial evs Hall)
    as (Ht & Hc & Hs & Hcl2 & Hcl3 & Ht3 & _).
  simpl in *.
  split_and!; try done.
  - by rewrite Ht, lookup_insert_eq.
  - intros portfolio. by rewrite Ht, lookup_insert_eq.
  - intros id Hid. by rewrite Ht, lookup_insert_ne, lookup_empty.
Qed.

End Polling.

End ComponentFacts.

(** ** The component on the sample life *)

Module SampleLife.
Import Component Sample.

Example events_run :
  let w := run (step initial Mount) events in
  data w = portfolio ∧ unhandled w = ["503"] ∧ pending w = 0
  ∧ set_data_calls (trace w) = [portfolio].
Proof. by split_and!. Qed.

Lemma single_interval_timer_witness :
  Forall running events
  ∧ clear_interval_calls
      (trace (step (run (step initial Mount) events) Unmount)) = [0]
  ∧ timers (step (run (step initial Mount) events) Unmount) = ∅.
Proof.
  assert (Forall running events) as Hrun by (repeat constructor).
  split; [exact Hrun|].
  pose proof (ComponentFacts.single_interval_timer events Hrun)
    as (_ & _ & _ & _ & _ & _ & _ & Hclear & Htimers).
  split; [exact Hclear|exact Htimers].
Defined.

End SampleLife.

(** * Further properties *)

(** ** Order of first occurrence *)

Lemma elem_of_first_occurrences k l : k ∈ first_occurrences l ↔ k ∈ l.
Proof.
  induction l as [|x l IH]; simpl; [done|].
  rewrite !elem_of_cons, list_elem_of_filter, IH.
  destruct (decide (k = x)) as [->|Hne].
  - split; [by left|by left].
  - split; [intros [?|[_ ?]]; [done|by right]|intros [?|?]; [done|by right]].
Qed.

Lemma NoDup_first_occurrences l : NoDup (first_occurrences l).
Proof.
  induction l as [|x l IH]; simpl; [apply NoDup_nil_2|].
  apply NoDup_cons. split; [|by apply NoDup_filter].
  rewrite list_elem_of_filter. by intros [? _].
Qed.

Lemma length_first_occurrences l :
  (length (first_occurrences l) ≤ length l)%nat.
Proof.
  induction l as [|x l IH]; simpl; [done|].
  pose proof (length_filter (λ k', k' ≠ x) (first_occurrences l)). lia.
Qed.

Lemma first_occurrences_snoc l k :
  first_occurrences (l ++ [k]) =
    if decide (k ∈ l) then first_occurrences l else first_occurrences l ++ [k].
Proof.
  induction l as [|x l IH].
  - destruct (decide (k ∈ [])) as [Hin|_]; [|done].
    by apply elem_of_nil in Hin.
  - change (x :: filter (λ k', k' ≠ x) (first_occurrences (l ++ [k])) =
            if decide (k ∈ x :: l)
            then x :: filter (λ k', k' ≠ x) (first_occurrences l)
            else (x :: filter (λ k', k' ≠ x) (first_occurrences l)) ++ [k]).
    rewrite IH.
    destruct (decide (k ∈ l)) as [Hin|Hnin];
      destruct (decide (k ∈ x :: l)) as [Hin'|Hnin'].
    + done.
    + destruct Hnin'. by right.
    + apply elem_of_cons in Hin' as [->|?]; [|done].
      rewrite filter_app, filter_cons, decide_False by (by intros ?).
      by rewrite filter_nil, app_nil_r.
    + rewrite filter_app, filter_cons, decide_True; [by rewrite filter_nil|].
      intros ->. apply Hnin'. by left.
Qed.

Lemma fst_filter {V} (P : string → Prop) `{!∀ k, Decision (P k)}
    (o : list (string * V)) :
  (filter (λ p, P p.1) o).*1 = filter P (o.*1).
Proof.
  induction o as [|[k v] o IH]; [done|].
  rewrite fmap_cons, !filter_cons. simpl.
  destruct (decide (P k)); [rewrite fmap_cons|]; by rewrite IH.
Qed.

(** ** Shape and order of the aggregation *)

Section AggregationShape.

Context {num info : Type}.
Variable add : num → num → num.
Variable zero : num.

Local Abbreviation Stock := (StockData.t num info).
Local Abbreviation Totals := (Summary.t num).
Local Abbreviation grouped := (groupedBySector add zero).

Implicit Types (acc : Js.Obj Totals) (stock h : Stock) (data : list Stock)
  (k : string) (s : Totals).

(** The keys after one reducer call: the key is created, after the others,
    unless it is there already or resolves through the prototype. *)
Lemma keys_reducer acc stock :
  Js.keys (reducer add zero acc stock) =
    let k := StockData.sector stock in
    if decide (k ∈ Js.keys acc) then Js.keys acc
    else if Js.inherited k then Js.keys acc
    else Js.keys acc ++ [k].
Proof.
  rewrite reducer_cases. simpl.
  destruct (Js.get_own (StockData.sector stock) acc) as [s|] eqn:Hk.
  - rewrite decide_True by (apply JsFacts.elem_of_keys; eauto).
    by rewrite JsFacts.keys_set_own, Hk.
  - rewrite decide_False by by apply JsFacts.not_elem_of_keys.
    destruct (Js.inherited _); [done|].
    by rewrite JsFacts.keys_set_own, Hk.
Qed.

Lemma own_sectors_snoc data h :
  own_sectors (data ++ [h]) =
    if Js.inherited (StockData.sector h) then own_sectors data
    else own_sectors data ++ [StockData.sector h].
Proof.
  unfold own_sectors. rewrite fmap_app, filter_app. simpl.
  rewrite filter_cons, filter_nil.
  destruct (Js.inherited (StockData.sector h)) eqn:Hi.
  - rewrite decide_False by done. by rewrite app_nil_r.
  - by rewrite decide_True.
Qed.

Lemma elem_of_own_sectors data k :
  k ∈ own_sectors data ↔ k ∈ StockData.sector <$> data ∧ Js.inherited k = false.
Proof. unfold own_sectors. by rewrite list_elem_of_filter, (comm and). Qed.

Lemma keys_groupedBySector data :
  Js.keys (grouped data) = first_occurrences (own_sectors data).
Proof.
  induction data as [|h data IH] using rev_ind; [done|].
  rewrite groupedBySector_snoc, keys_reducer, own_sectors_snoc. simpl.
  set (k := StockData.sector h).
  destruct (decide (k ∈ Js.keys (grouped data))) as [Hin|Hnin].
  - apply elem_of_keys_groupedBySector in Hin as Hin'.
    destruct Hin' as [_ ->]. rewrite first_occurrences_snoc.
    rewrite IH, elem_of_first_occurrences in Hin. by rewrite decide_True.
  - destruct (Js.inherited k) eqn:Hi; [done|].
    rewrite first_occurrences_snoc.
    rewrite IH, elem_of_first_occurrences in Hnin.
    by rewrite decide_False, IH.
Qed.

Lemma prefix_filter {A} (P : A → Prop) `{!∀ x, Decision (P x)}
    (l1 l2 : list A) :
  l1 `prefix_of` l2 → filter P l1 `prefix_of` filter P l2.
Proof. intros [k ->]. rewrite filter_app. by apply prefix_app_r. Qed.

Lemma filter_none {A} (P : A → Prop) `{!∀ x, Decision (P x)} (l : list A) :
  Forall (λ x, ¬ P x) l → filter P l = [].
Proof.
  induction 1 as [|x l Hx _ IH]; [done|].
  by rewrite filter_cons, decide_False.
Qed.

Lemma filter_twice {A} (P : A → Prop) `{!∀ x, Decision (P x)} (l : list A) :
  filter P (filter P l) = filter P l.
Proof.
  induction l as [|x l IH]; [done|].
  rewrite filter_cons. destruct (decide (P x)); [|done].
  by rewrite filter_cons, decide_True, IH.
Qed.

Lemma keys_groupedBySector_prefix (xs ys : list Stock) :
  Js.keys (grouped xs) `prefix_of` Js.keys (grouped (xs ++ ys)).
Proof.
  induction ys as [|h ys IH] using rev_ind.
  - by rewrite app_nil_r.
  - rewrite app_assoc, groupedBySector_snoc, keys_reducer. simpl.
    destruct (decide _); [done|].
    destruct (Js.inherited _); [done|]. by apply prefix_app_r.
Qed.

Lemma chartData_names_Permutation data :
  ChartEntry.name <$> chartData add zero data ≡ₚ Js.keys (grouped data).
Proof.
  unfold chartData. rewrite <- list_fmap_compose.
  change ((Js.entries (grouped data)).*1 ≡ₚ (grouped data).*1).
  by rewrite JsFacts.entries_Permutation.
Qed.

Lemma chartData_names_not_index data :
  filter (λ k, Js.is_index k = false) (ChartEntry.name <$> chartData add zero data)
  = filter (λ k, Js.is_index k = false) (Js.keys (grouped data)).
Proof.
  unfold chartData. rewrite <- list_fmap_compose.
  change (filter (λ k, Js.is_index k = false) (Js.entries (grouped data)).*1
          = filter (λ k, Js.is_index k = false) (Js.keys (grouped data))).
  unfold Js.entries. rewrite fmap_app, filter_app.
  pose proof (fst_filter (λ k, Js.is_index k = false) (grouped data)) as Hno.
  simpl in Hno. rewrite Hno. clear Hno.
  assert (filter (λ k, Js.is_index k = false)
            (merge_sort Js.index_le
               (filter (λ p, Js.is_index p.1 = true) (grouped data))).*1 = [])
    as ->.
  { apply filter_none, Forall_forall. intros k Hk Hno.
    apply list_elem_of_fmap in Hk as ([k' v] & -> & Hk).
    rewrite merge_sort_Permutation in Hk.
    apply list_elem_of_filter in Hk as [Hyes _]. simpl in *. congruence. }
  simpl. apply filter_twice.
Qed.

(** X1.  The chart has as many entries as the input has distinct sectors
    (names inherited from [Object.prototype] left out), and never more than
    there are holdings. *)
Theorem chartData_counts_distinct_sectors data :
  length (chartData add zero data) =
    size (list_to_set (own_sectors data) : gset string)
  ∧ (length (chartData add zero data) ≤ length data)%nat.
Proof.
  assert (length (chartData add zero data) =
          length (first_occurrences (own_sectors data))) as Hlen.
  { rewrite <- (length_fmap ChartEntry.name), chartData_names_Permutation.
    by rewrite keys_groupedBySector. }
  split.
  - rewrite Hlen, <- (size_list_to_set (C := gset string))
      by apply NoDup_first_occurrences.
    f_equal. apply set_eq. intros k.
    by rewrite !elem_of_list_to_set, elem_of_first_occurrences.
  - rewrite Hlen. etrans; [apply length_first_occurrences|].
    unfold own_sectors. etrans; [apply length_filter|].
    by rewrite length_fmap.
Qed.

(** X2.  Appending holdings removes no entry from the chart and leaves the
    totals of every sector that does not occur among the appended holdings
    as they were; among the sectors whose name is not an array index, those
    already listed keep their places and new ones are listed after them. *)
Theorem chartData_append (xs ys : list Stock) :
  (∀ k, k ∈ ChartEntry.name <$> chartData add zero xs →
        k ∈ ChartEntry.name <$> chartData add zero (xs ++ ys))
  ∧ filter (λ k, Js.is_index k = false)
           (ChartEntry.name <$> chartData add zero xs)
    `prefix_of`
    filter (λ k, Js.is_index k = false)
           (ChartEntry.name <$> chartData add zero (xs ++ ys))
  ∧ ∀ k, k ∉ StockData.sector <$> ys →
         Js.get_own k (grouped (xs ++ ys)) = Js.get_own k (grouped xs).
Proof.
  split_and!.
  - intros k. rewrite !chartData_names_Permutation.
    destruct (keys_groupedBySector_prefix xs ys) as [l ->].
    intros Hk. apply elem_of_app. by left.
  - rewrite !chartData_names_not_index.
    apply prefix_filter, keys_groupedBySector_prefix.
  - intros k Hk. rewrite !get_own_groupedBySector.
    unfold members. rewrite filter_app.
    apply members_nil_iff in Hk. unfold members in Hk.
    by rewrite Hk, app_nil_r.
Qed.

(** X3.  Whatever the arithmetic, reordering the input does not change which
    groups the output has: the keys of the two outputs are the same, up to
    order. *)
Theorem groupedBySector_keys_Permutation (xs ys : list Stock) :
  xs ≡ₚ ys → Js.keys (grouped xs) ≡ₚ Js.keys (grouped ys).
Proof.
  intros Hp. apply NoDup_Permutation.
  - apply NoDup_keys_groupedBySector.
  - apply NoDup_keys_groupedBySector.
  - intros k. rewrite !elem_of_keys_groupedBySector. by rewrite Hp.
Qed.

(** X4.  The reducer never reads a field of [undefined]: at each of its four
    [+=] statements [acc[stock.sector]] is an object, so no call of the
    reducer throws. *)
Theorem reducer_never_reads_undefined acc stock :
  let k := StockData.sector stock in
  let acc0 := ensure zero acc k in
  let acc1 :=
    compound_assign (add_investment add (StockData.investment stock)) acc0 k in
  let acc2 :=
    compound_assign (add_presentValue add (StockData.presentValue stock)) acc1 k in
  let acc3 :=
    compound_assign (add_purchasePrice add (StockData.purchasePrice stock)) acc2 k in
  Js.Get acc0 k ≠ Js.Undefined ∧ Js.Get acc1 k ≠ Js.Undefined
  ∧ Js.Get acc2 k ≠ Js.Undefined ∧ Js.Get acc3 k ≠ Js.Undefined.
Proof.
  intros k acc0 acc1 acc2 acc3.
  assert (∀ a : Js.Obj Totals,
            Js.truthy (Js.Get a k) = true → Js.Get a k ≠ Js.Undefined) as Hne.
  { intros a Ht Hu. by rewrite Hu in Ht. }
  pose proof (reducer_target_truthy zero acc k) as H0.
  pose proof (compound_assign_keeps_target
                (add_investment add (StockData.investment stock)) _ _ H0) as H1.
  pose proof (compound_assign_keeps_target
                (add_presentValue add (StockData.presentValue stock)) _ _ H1) as H2.
  pose proof (compound_assign_keeps_target
                (add_purchasePrice add (StockData.purchasePrice stock)) _ _ H2) as H3.
  split_and!; by apply Hne.
Qed.

End AggregationShape.

(** ** What is rendered *)

Lemma index_le_total {V} : Total (@Js.index_le V).
Proof. intros p q. unfold Js.index_le. lia. Qed.

Lemma NoDup_COLORS : NoDup COLORS.
Proof. by apply (bool_decide_unpack _). Qed.

Section RenderingFacts.

Context {num info : Type}.
Variable add : num → num → num.
Variable zero : num.
Variable toFixed2 : num → string.
Variable ge_zero : num → bool.

Local Abbreviation Stock := (StockData.t num info).
Local Abbreviation Totals := (Summary.t num).
Local Abbreviation grouped := (groupedBySector add zero).

Implicit Types (data : list Stock) (k : string) (s : Totals).

Lemma elem_of_groupedBySector_totals data k s :
  (k, s) ∈ grouped data → s = totals add zero (members k data).
Proof.
  intros Hin.
  apply JsFacts.elem_of_get_own in Hin; [|apply NoDup_keys_groupedBySector].
  rewrite get_own_groupedBySector in Hin.
  destruct (Js.inherited k); [done|].
  destruct (members k data); [done|]. by injection Hin as <-.
Qed.

Lemma chartData_names data :
  ChartEntry.name <$> chartData add zero data =
  (Js.entries (grouped data)).*1.
Proof. unfold chartData. by rewrite <- list_fmap_compose. Qed.

(** X5.  The order of the chart entries: sectors whose name is an array
    index come first, by ascending numeric value; the other sectors follow
    in the order of their first occurrence in the input. *)
Theorem chartData_order data :
  ∃ idx,
    ChartEntry.name <$> chartData add zero data =
      idx ++ filter (λ k, Js.is_index k = false)
                    (first_occurrences (own_sectors data))
    ∧ idx ≡ₚ filter (λ k, Js.is_index k = true)
                    (first_occurrences (own_sectors data))
    ∧ Sorted (λ a b, (index_of a ≤ index_of b)%N) idx.
Proof.
  exists ((merge_sort Js.index_le
             (filter (λ p, Js.is_index p.1 = true) (grouped data))).*1).
  split_and!.
  - rewrite chartData_names. unfold Js.entries. rewrite fmap_app. f_equal.
    rewrite <- (keys_groupedBySector add zero).
    exact (fst_filter (λ k, Js.is_index k = false) (grouped data)).
  - rewrite merge_sort_Permutation.
    rewrite <- (keys_groupedBySector add zero).
    pose proof (fst_filter (λ k, Js.is_index k = true) (grouped data)) as ->.
    done.
  - apply (Sorted_fmap fst Js.index_le); [by intros [??] [??]|].
    apply Sorted_merge_sort, index_le_total.
Qed.

(** X6.  Every slice of the pie gets a colour of the palette (the array read
    is never out of range); two slices have the same colour exactly when
    their positions agree modulo 6, so up to six sectors are all coloured
    differently; and the React keys of the cells are pairwise distinct. *)
Theorem cells_colours data :
  length (cells add zero data) = length (chartData add zero data)
  ∧ (∀ i c, cells add zero data !! i = Some c →
       Cell.key c = "cell-" +:+ pretty i
       ∧ Cell.fill c = COLORS !! (i mod 6)
       ∧ ∃ colour, Cell.fill c = Some colour ∧ colour ∈ COLORS)
  ∧ (∀ i j ci cj,
       cells add zero data !! i = Some ci →
       cells add zero data !! j = Some cj →
       (Cell.fill ci = Cell.fill cj ↔ i mod 6 = j mod 6)
       ∧ (Cell.key ci = Cell.key cj ↔ i = j)).
Proof.
  assert (∀ i, ∃ colour, COLORS !! (i mod 6) = Some colour) as Hcol.
  { intros i. apply lookup_lt_is_Some.
    change (length COLORS) with 6.
    pose proof (Nat.mod_upper_bound i 6). lia. }
  split_and!.
  - unfold cells. apply length_imap.
  - intros i c (e & _ & ->)%list_lookup_imap_Some.
    cbn [Cell.key Cell.fill]. split_and!; [done..|].
    destruct (Hcol i) as [colour Hc]. exists colour. split; [done|].
    by eapply list_elem_of_lookup_2.
  - intros i j ci cj (ei & _ & ->)%list_lookup_imap_Some
                     (ej & _ & ->)%list_lookup_imap_Some.
    cbn [Cell.key Cell.fill]. change (length COLORS) with 6.
    split; split.
    + intros Heq. destruct (Hcol i) as [colour Hi].
      eapply (NoDup_lookup COLORS); [apply NoDup_COLORS|exact Hi|].
      by rewrite <- Heq.
    + by intros ->.
    + intros Heq%(inj (String.append "cell-")). by apply (inj pretty) in Heq.
    + by intros ->.
Qed.

(** X7.  The sector summary table has one row per chart entry, for the same
    sectors in the same order, keyed 0, 1, 2, ...; the row of a sector shows
    the sums of purchase price, investment, present value and gain/loss over
    the holdings of that sector, and its gain/loss is green exactly when
    that sum is [>= 0]. *)
Theorem summaryRows_aligned_with_chart data :
  let rows := summaryRows add zero toFixed2 ge_zero data in
  SummaryRow.sector <$> rows = ChartEntry.name <$> chartData add zero data
  ∧ SummaryRow.key <$> rows = seq 0 (length (chartData add zero data))
  ∧ ∀ i r, rows !! i = Some r →
      let ms := members (SummaryRow.sector r) data in
      SummaryRow.purchasePrice r =
        toFixed2 (total add zero StockData.purchasePrice ms)
      ∧ SummaryRow.investment r =
        toFixed2 (total add zero StockData.investment ms)
      ∧ SummaryRow.presentValue r =
        toFixed2 (total add zero StockData.presentValue ms)
      ∧ SummaryRow.gainLoss r = toFixed2 (total add zero StockData.gainLoss ms)
      ∧ (SummaryRow.gainLossClass r = "text-green-400"
         ↔ ge_zero (total add zero StockData.gainLoss ms) = true).
Proof.
  simpl. split_and!.
  - rewrite chartData_names. unfold summaryRows.
    apply list_eq. intros i.
    rewrite !list_lookup_fmap, list_lookup_imap.
    by destruct (Js.entries (grouped data) !! i).
  - unfold summaryRows, chartData. rewrite length_fmap.
    apply list_eq. intros i.
    rewrite list_lookup_fmap, list_lookup_imap.
    destruct (Js.entries (grouped data) !! i) as [p|] eqn:Hp; simpl.
    + symmetry. apply lookup_seq. split; [done|].
      by eapply lookup_lt_Some.
    + symmetry. apply lookup_seq_ge. by apply lookup_ge_None.
  - intros i r ([k s] & Hp & ->)%list_lookup_imap_Some. simpl.
    apply list_elem_of_lookup_2 in Hp.
    rewrite JsFacts.entries_Permutation in Hp.
    apply elem_of_groupedBySector_totals in Hp as ->. simpl.
    split_and!; try done.
    unfold gainLossColor. by destruct (ge_zero _).
Qed.

End RenderingFacts.

(** ** The chart adds up to the portfolio *)

Section Conservation.

Context {num info : Type}.
Variable add : num → num → num.
Variable zero : num.

Hypothesis add_assoc : ∀ a b c, add a (add b c) = add (add a b) c.
Hypothesis add_comm : ∀ a b, add a b = add b a.
Hypothesis add_zero_r : ∀ a, add a zero = a.

Local Abbreviation Stock := (StockData.t num info).
Local Abbreviation Totals := (Summary.t num).
Local Abbreviation grouped := (groupedBySector add zero).

Lemma foldl_add_shift {A} (f : A → num) (l : list A) a x :
  foldl (λ a y, add a (f y)) (add a x) l = add (foldl (λ a y, add a (f y)) a l) x.
Proof.
  revert a. induction l as [|y l IH]; intros a; simpl; [done|].
  rewrite <- IH. f_equal. by rewrite <- !add_assoc, (add_comm x).
Qed.

Lemma foldl_add_perm {A} (f : A → num) (xs ys : list A) a :
  xs ≡ₚ ys →
  foldl (λ a y, add a (f y)) a xs = foldl (λ a y, add a (f y)) a ys.
Proof.
  intros Hp. revert a.
  induction Hp as [|x xs ys _ IH|x y xs|xs ys zs _ IH1 _ IH2]; intros a; simpl.
  - done.
  - apply IH.
  - f_equal. by rewrite <- !add_assoc, (add_comm (f y)).
  - by rewrite IH1.
Qed.

Lemma foldl_add_ext {A} (f g : A → num) (l : list A) a :
  (∀ x, f x = g x) →
  foldl (λ a y, add a (f y)) a l = foldl (λ a y, add a (g y)) a l.
Proof.
  intros Hfg. revert a. induction l as [|y l IH]; intros a; simpl; [done|].
  by rewrite Hfg, IH.
Qed.

(** Summing a field over the own properties, after a write. *)
Lemma sum_set_own_Some (f : Totals → num) k s s' x (o : Js.Obj Totals) a :
  Js.get_own k o = Some s → f s' = add (f s) x →
  foldl (λ a p, add a (f p.2)) a (Js.set_own k s' o) =
  add (foldl (λ a p, add a (f p.2)) a o) x.
Proof.
  intros Hk Hs'. revert a.
  induction o as [|[k0 v0] o IH]; intros a; simpl in *; [done|].
  destruct (decide (k = k0)) as [->|Hne]; simpl.
  - injection Hk as ->. rewrite Hs', add_assoc. apply foldl_add_shift.
  - by apply IH.
Qed.

Lemma sum_set_own_None (f : Totals → num) k s' (o : Js.Obj Totals) a :
  Js.get_own k o = None →
  foldl (λ a p, add a (f p.2)) a (Js.set_own k s' o) =
  add (foldl (λ a p, add a (f p.2)) a o) (f s').
Proof.
  intros Hk. revert a.
  induction o as [|[k0 v0] o IH]; intros a; simpl in *; [done|].
  destruct (decide (k = k0)) as [->|Hne]; [done|]. simpl. by apply IH.
Qed.

(** One field, summed over the groups: it is the field summed over the
    holdings that were aggregated. *)
Lemma sum_groupedBySector (fs : Totals → num) (fh : Stock → num)
    (data : list Stock) :
  (∀ s h, fs (accumulate add s h) = add (fs s) (fh h)) →
  fs (fresh zero) = zero →
  foldl (λ a p, add a (fs p.2)) zero (grouped data) =
  total add zero fh
    (filter (λ h, Js.inherited (StockData.sector h) = false) data).
Proof.
  intros Hacc Hfresh.
  induction data as [|h data IH] using rev_ind; [done|].
  rewrite groupedBySector_snoc, reducer_cases, filter_app, filter_cons,
    filter_nil. simpl.
  destruct (Js.get_own (StockData.sector h) (grouped data)) as [s|] eqn:Hk.
  - assert (Js.inherited (StockData.sector h) = false) as Hi.
    { eapply elem_of_keys_groupedBySector, JsFacts.elem_of_keys. eauto. }
    rewrite decide_True by done.
    rewrite (sum_set_own_Some fs _ s _ (fh h)) by done.
    by rewrite total_snoc, IH.
  - destruct (Js.inherited (StockData.sector h)) eqn:Hi.
    + rewrite decide_False by done. by rewrite app_nil_r.
    + rewrite decide_True by done.
      rewrite sum_set_own_None by done.
      rewrite total_snoc, IH, Hacc, Hfresh.
      by rewrite (add_comm zero), add_zero_r.
Qed.

Lemma chart_total_entries (fe : ChartEntry.t num → num) (fs : Totals → num)
    (data : list Stock) :
  (∀ k s, fe (ChartEntry.mk k (Summary.investment s) (Summary.purchasePrice s)
                (Summary.presentValue s) (Summary.gainLoss s)) = fs s) →
  chart_total add zero fe (chartData add zero data) =
  foldl (λ a p, add a (fs p.2)) zero (grouped data).
Proof.
  intros Hf. unfold chart_total, chartData. rewrite foldl_fmap.
  rewrite <- (foldl_add_perm (λ p, fs p.2) _ _ zero
                (JsFacts.entries_Permutation (grouped data))).
  apply foldl_add_ext. intros [k s]. apply Hf.
Qed.

Lemma filter_all {A} (P : A → Prop) `{!∀ x, Decision (P x)} (l : list A) :
  Forall P l → filter P l = l.
Proof.
  induction 1 as [|x l Hx _ IH]; [done|].
  by rewrite filter_cons, decide_True, IH.
Qed.

(** X8.  Over exact arithmetic, and when no sector is a name that resolves
    through the prototype, the chart entries add up to the portfolio: the
    investments of the slices sum to the total investment of the holdings,
    and likewise for purchase price, present value and gain/loss. *)
Theorem chartData_adds_up (data : list Stock) :
  Forall (λ h, Js.inherited (StockData.sector h) = false) data →
  chart_total add zero ChartEntry.investment (chartData add zero data)
    = total add zero StockData.investment data
  ∧ chart_total add zero ChartEntry.purchasePrice (chartData add zero data)
    = total add zero StockData.purchasePrice data
  ∧ chart_total add zero ChartEntry.presentValue (chartData add zero data)
    = total add zero StockData.presentValue data
  ∧ chart_total add zero ChartEntry.gainLoss (chartData add zero data)
    = total add zero StockData.gainLoss data.
Proof.
  intros Hall'.
  assert (filter (λ h : Stock, Js.inherited (StockData.sector h) = false) data
          = data) as Hall by by apply filter_all.
  split_and!.
  - rewrite (chart_total_entries _ Summary.investment) by done.
    by rewrite (sum_groupedBySector _ StockData.investment), Hall.
  - rewrite (chart_total_entries _ Summary.purchasePrice) by done.
    by rewrite (sum_groupedBySector _ StockData.purchasePrice), Hall.
  - rewrite (chart_total_entries _ Summary.presentValue) by done.
    by rewrite (sum_groupedBySector _ StockData.presentValue), Hall.
  - rewrite (chart_total_entries _ Summary.gainLoss) by done.
    by rewrite (sum_groupedBySector _ StockData.gainLoss), Hall.
Qed.

End Conservation.

(** ** The component over its whole life *)

Module LifeFacts.
Import Component.

Section Life.

Context {num info Err : Type}.

Local Abbreviation Stock := (StockData.t num info).
Local Abbreviation World := (Component.World num info Err).
Local Abbreviation Event := (Component.Event num info Err).

Implicit Types (w : World) (ev : Event) (evs : list Event)
  (portfolio : list Stock) (e : Err).

Lemma run_snoc w evs ev : run w (evs ++ [ev]) = step (run w evs) ev.
Proof. unfold run. by rewrite foldl_app. Qed.

Lemma run_app w evs1 evs2 : run w (evs1 ++ evs2) = run (run w evs1) evs2.
Proof. unfold run. by rewrite foldl_app. Qed.

(** During a life, the state changes only when a fetch of the instance is
    fulfilled, and then to the fetched list. *)
Lemma data_step_running w ev :
  running ev →
  data (step w ev) = data w
  ∨ ∃ portfolio, ev = Settle (Fulfilled portfolio) ∧ data (step w ev) = portfolio.
Proof.
  destruct ev as [|id|[portfolio|e]|[portfolio|e]|]; simpl; try done; intros _.
  - left. by destruct (timers w !! id) as [[[] ?]|].
  - unfold settle. destruct (pending w); [by left|]. right. by exists portfolio.
  - left. unfold settle. by destruct (pending w).
  - left. unfold settle_stale. by destruct (stale w).
  - left. unfold settle_stale. by destruct (stale w).
Qed.

Lemma data_run_running w evs :
  Forall running evs →
  data (run w evs) = data w ∨ Settle (Fulfilled (data (run w evs))) ∈ evs.
Proof.
  induction evs as [|ev evs IH] using rev_ind; [by left|].
  intros [Hevs Hev]%Forall_app. apply Forall_inv in Hev.
  rewrite run_snoc.
  destruct (data_step_running (run w evs) ev Hev) as [->|(portfolio & -> & ->)].
  - destruct (IH Hevs) as [->|Hin]; [by left|].
    right. apply elem_of_app. by left.
  - right. apply elem_of_app. right. by apply list_elem_of_singleton.
Qed.

(** X9.  After any number of earlier lives of the component, the holdings
    state of the instance now mounted is either the empty list it started
    from or, unchanged, one of the lists a fetch of this life was fulfilled
    with: nothing is merged, patched, made up, or carried over from an
    instance that was torn down. *)
Theorem state_is_initial_or_fetched (past : list (list Event)) evs :
  Forall (Forall running) past → Forall running evs →
  let w : World := run initial (lives past ++ Mount :: evs) in
  data w = [] ∨ Settle (Fulfilled (data w)) ∈ evs.
Proof.
  intros _ Hevs. simpl.
  rewrite run_app. simpl.
  by destruct (data_run_running
                 (effect (new_instance (run initial (lives past)))) evs Hevs)
    as [->|?]; [left|right].
Qed.

Lemma fetch_calls_snoc (t : list (Call num info)) c :
  fetch_calls (t ++ [c]) =
  fetch_calls t + match c with CallFetchPortfolio => 1 | _ => 0 end.
Proof.
  unfold fetch_calls. rewrite omap_app, length_app. by destruct c.
Qed.

Lemma set_data_calls_snoc (t : list (Call num info)) c :
  length (set_data_calls (t ++ [c])) =
  length (set_data_calls t) + match c with CallSetData _ => 1 | _ => 0 end.
Proof.
  rewrite ComponentFacts.set_data_calls_app, length_app. by destruct c.
Qed.

Lemma accounted_call_fetchAndSet w : accounted w → accounted (call_fetchAndSet w).
Proof.
  unfold accounted, call_fetchAndSet, log. simpl.
  rewrite fetch_calls_snoc, set_data_calls_snoc. lia.
Qed.

Lemma accounted_step w ev : accounted w → accounted (step w ev).
Proof.
  intros Hw. destruct ev as [|id|r|r|]; simpl.
  - assert (accounted (new_instance w)) as Hn by exact Hw.
    apply accounted_call_fetchAndSet in Hn. revert Hn.
    unfold accounted, effect, setInterval, log. simpl.
    rewrite !fetch_calls_snoc, !set_data_calls_snoc. lia.
  - destruct (timers w !! id) as [[[] ?]|]; [|done].
    by apply accounted_call_fetchAndSet.
  - unfold accounted in *. unfold settle.
    destruct (pending w) as [|n] eqn:Hp; [by rewrite Hp|].
    destruct r as [portfolio|e]; simpl.
    + rewrite fetch_calls_snoc, set_data_calls_snoc. lia.
    + rewrite length_app. simpl. lia.
  - unfold accounted in *. unfold settle_stale.
    destruct (stale w) as [|n] eqn:Hp; [by rewrite Hp|].
    destruct r as [portfolio|e]; simpl.
    + rewrite fetch_calls_snoc, set_data_calls_snoc. lia.
    + rewrite length_app. simpl. lia.
  - unfold accounted in *. unfold run_cleanup.
    destruct (cleanup w) as [id|]; simpl; [|lia].
    rewrite fetch_calls_snoc, set_data_calls_snoc. lia.
Qed.

(** One step calls [setData] at most once, and only with the list of a fetch
    that the step fulfils; it leaves at most one rejection unobserved, and
    only the one of a fetch that the step rejects. *)
Lemma step_setData_from_fetch w ev :
  ∃ ps es,
    set_data_calls (trace (step w ev)) = set_data_calls (trace w) ++ ps
    ∧ ps `sublist_of` fulfilled_lists [ev]
    ∧ unhandled (step w ev) = unhandled w ++ es
    ∧ es `sublist_of` rejected_reasons [ev].
Proof.
  destruct ev as [|id|[portfolio|e]|[portfolio|e]|]; simpl.
  - exists [], []. rewrite !ComponentFacts.set_data_calls_app. simpl.
    by rewrite !app_nil_r.
  - exists [], []. rewrite !app_nil_r.
    destruct (timers w !! id) as [[[] ?]|]; [|done]. simpl.
    rewrite ComponentFacts.set_data_calls_app. simpl. by rewrite app_nil_r.
  - unfold settle. destruct (pending w).
    + exists [], []. rewrite !app_nil_r. split_and!; try done.
      apply sublist_nil_l.
    + exists [portfolio], []. simpl.
      rewrite ComponentFacts.set_data_calls_app. simpl. by rewrite app_nil_r.
  - unfold settle. destruct (pending w).
    + exists [], []. rewrite !app_nil_r. split_and!; try done.
      apply sublist_nil_l.
    + exists [], [e]. simpl. by rewrite app_nil_r.
  - unfold settle_stale. destruct (stale w).
    + exists [], []. rewrite !app_nil_r. split_and!; try done.
      apply sublist_nil_l.
    + exists [portfolio], []. simpl.
      rewrite ComponentFacts.set_data_calls_app. simpl. by rewrite app_nil_r.
  - unfold settle_stale. destruct (stale w).
    + exists [], []. rewrite !app_nil_r. split_and!; try done.
      apply sublist_nil_l.
    + exists [], [e]. simpl. by rewrite app_nil_r.
  - exists [], []. rewrite !app_nil_r. unfold run_cleanup.
    destruct (cleanup w); [|done]. simpl.
    rewrite ComponentFacts.set_data_calls_app. simpl. by rewrite app_nil_r.
Qed.

Lemma run_setData_from_fetch w evs :
  ∃ ps es,
    set_data_calls (trace (run w evs)) = set_data_calls (trace w) ++ ps
    ∧ ps `sublist_of` fulfilled_lists evs
    ∧ unhandled (run w evs) = unhandled w ++ es
    ∧ es `sublist_of` rejected_reasons evs.
Proof.
  induction evs as [|ev evs IH] using rev_ind.
  - exists [], []. by rewrite !app_nil_r.
  - destruct IH as (ps & es & Hps & Hsub & Hes & Hsube).
    destruct (step_setData_from_fetch (run w evs) ev)
      as (ps' & es' & Hps' & Hsub' & Hes' & Hsube').
    exists (ps ++ ps'), (es ++ es'). rewrite run_snoc.
    unfold fulfilled_lists, rejected_reasons in *. rewrite !omap_app.
    split_and!.
    + by rewrite Hps', Hps, app_assoc.
    + by apply sublist_app.
    + by rewrite Hes', Hes, app_assoc.
    + by apply sublist_app.
Qed.

(** X10.  At every moment of the life of a component: the lists [setData]
    was called with are, in order, lists that fetches were fulfilled with,
    each accounting for one call at most; the rejections left unobserved
    are, in order, reasons fetches were rejected with; and the number of
    [fetchPortfolio()] calls is the number of fetches still suspended plus
    the number of [setData] calls plus the number of unobserved rejections.
    So [setData] is never called without a fulfilled fetch, and never with
    anything but what the fetch returned. *)
Theorem every_setData_has_its_fetch evs :
  let w : World := run initial evs in
  set_data_calls (trace w) `sublist_of` fulfilled_lists evs
  ∧ unhandled w `sublist_of` rejected_reasons evs
  ∧ fetch_calls (trace w) =
    pending w + stale w + length (set_data_calls (trace w))
    + length (unhandled w).
Proof.
  simpl.
  assert (accounted (run (initial : World) evs)) as Hacc.
  { induction evs as [|ev evs IH] using rev_ind; [done|].
    rewrite run_snoc. by apply accounted_step. }
  destruct (run_setData_from_fetch (initial : World) evs)
    as (ps & es & Hps & Hsub & Hes & Hsube).
  simpl in Hps, Hes.
  split_and!.
  - by rewrite Hps.
  - by rewrite Hes.
  - exact Hacc.
Qed.

(** X11.  A failed poll does not stop the polling: the rejection leaves the
    timer and the cleanup in place, the next firing of the timer fetches
    again, and when that fetch is fulfilled the state is the fetched list. *)
Theorem failed_poll_keeps_polling w e id delay :
  timers w !! id = Some (FetchAndSet, delay) →
  let w' := step w (Settle (Rejected e)) in
  timers w' = timers w
  ∧ cleanup w' = cleanup w
  ∧ step w' (Tick id) = call_fetchAndSet w'
  ∧ ∀ portfolio,
      data (run w' [Tick id; Settle (Fulfilled portfolio)]) = portfolio.
Proof.
  intros Hid. simpl.
  destruct (ComponentFacts.step_running_frame w (Settle (Rejected e)) I)
    as (Ht & Hc & _). simpl in Ht, Hc.
  split_and!; [done|done| |].
  - by rewrite Ht, Hid.
  - intros portfolio. by rewrite Ht, Hid.
Qed.

Lemma step_ticks_no_timers w (ids : list nat) :
  timers w = ∅ → run w (Tick <$> ids) = w.
Proof.
  intros Ht. induction ids as [|id ids IH]; [done|].
  simpl. by rewrite Ht, lookup_empty.
Qed.

Lemma stale_run_cleanup w : stale (run_cleanup w) = stale w.
Proof. unfold run_cleanup. by destruct (cleanup w). Qed.

Lemma pending_run_cleanup w : pending (run_cleanup w) = pending w.
Proof. unfold run_cleanup. by destruct (cleanup w). Qed.

(** X12.  After teardown no timer firing starts a fetch any more; but the
    cleanup cancels no fetch: the fetches that were in flight are still
    outstanding, and when one of them is fulfilled [setData] is still called
    with its list. *)
Theorem teardown_stops_polling_only evs :
  Forall running evs →
  let w2 : World := run (step initial Mount) evs in
  let w3 := step w2 Unmount in
  (∀ ids : list nat, run w3 (Tick <$> ids) = w3)
  ∧ pending w3 + stale w3 = pending w2 + stale w2
  ∧ stale w3 = stale w2 + pending w2
  ∧ ∀ portfolio,
      pending w2 ≠ 0 →
      set_data_calls (trace (step w3 (SettleStale (Fulfilled portfolio)))) =
      set_data_calls (trace w3) ++ [portfolio].
Proof.
  intros Hall.
  destruct (ComponentFacts.mount_unmount_cycle initial evs Hall)
    as (_ & _ & _ & _ & _ & Ht3 & _).
  simpl in *.
  split_and!.
  - intros ids. by apply step_ticks_no_timers.
  - rewrite stale_run_cleanup, pending_run_cleanup. lia.
  - by rewrite stale_run_cleanup, pending_run_cleanup.
  - intros portfolio Hpend. unfold settle_stale. simpl.
    rewrite stale_run_cleanup, pending_run_cleanup.
    destruct (stale _ + pending _) as [|n] eqn:Hn; [lia|]. simpl.
    rewrite ComponentFacts.set_data_calls_app. done.
Qed.

Lemma next_id_run_cleanup w : next_id (run_cleanup w) = next_id w.
Proof. unfold run_cleanup. by destruct (cleanup w). Qed.

(** X13.  When the component is mounted, torn down and mounted again, the
    second mount registers a timer of its own under a fresh id, which is
    then the only one; the second teardown clears that one.  Every timer
    that was set is cleared once, and none is left. *)
Theorem remount_has_one_timer evs1 evs2 :
  Forall running evs1 → Forall running evs2 →
  let w3 : World := step (run (step initial Mount) evs1) Unmount in
  let w5 := run (step w3 Mount) evs2 in
  let w6 := step w5 Unmount in
  timers w5 = {[ 1 := (FetchAndSet, 15000%Z) ]}
  ∧ cleanup w5 = Some 1
  ∧ set_interval_calls (trace w6) =
    [(FetchAndSet, 15000%Z, 0); (FetchAndSet, 15000%Z, 1)]
  ∧ clear_interval_calls (trace w6) = [0; 1]
  ∧ timers w6 = ∅.
Proof.
  intros Hall1 Hall2.
  destruct (ComponentFacts.mount_unmount_cycle initial evs1 Hall1)
    as (_ & _ & Hs3 & _ & Hcl3 & Ht3 & _).
  set (w3 := step (run (step (initial : World) Mount) evs1) Unmount) in *.
  assert (next_id w3 = 1) as Hn.
  { unfold w3. simpl. rewrite next_id_run_cleanup.
    by destruct (ComponentFacts.run_running_frame evs1
                   (effect (new_instance initial)) Hall1)
      as (_ & _ & -> & _). }
  destruct (ComponentFacts.mount_unmount_cycle w3 evs2 Hall2)
    as (Ht5 & Hc5 & Hs6 & _ & Hcl6 & Ht6 & _).
  rewrite Hn in *.
  cbv zeta. split_and!.
  - by rewrite Ht5, Ht3.
  - done.
  - by rewrite Hs6, Hs3.
  - by rewrite Hcl6, Hcl3.
  - by rewrite Ht6, Ht3.
Qed.

End Life.

End LifeFacts.

(** ** Holdings the aggregation passes over, and polls that pile up *)

Section Ignored.

Context {num info : Type}.
Variable add : num → num → num.
Variable zero : num.

Local Abbreviation Stock := (StockData.t num info).
Local Abbreviation grouped := (groupedBySector add zero).

(** X14.  Holdings whose sector is a name that resolves through the
    prototype ([constructor], [toString], ...) take no part in the
    aggregation: the output is the one of the input without them. *)
Theorem groupedBySector_passes_over_inherited (data : list Stock) :
  grouped data =
  grouped (filter (λ h, Js.inherited (StockData.sector h) = false) data).
Proof.
  induction data as [|h data IH] using rev_ind; [done|].
  rewrite filter_app, filter_cons, filter_nil.
  destruct (Js.inherited (StockData.sector h)) eqn:Hi.
  - rewrite decide_False by done. rewrite app_nil_r, <- IH.
    rewrite groupedBySector_snoc, reducer_cases. simpl.
    destruct (Js.get_own _ _) as [s|] eqn:Hk; [|by rewrite Hi].
    assert (Js.inherited (StockData.sector h) = false) as Hi'; [|congruence].
    eapply elem_of_keys_groupedBySector, JsFacts.elem_of_keys. eauto.
  - rewrite decide_True by done.
    by rewrite !groupedBySector_snoc, IH.
Qed.

End Ignored.

Module Overlap.
Import Component.

(** X15.  There is no guard against overlapping requests: while the timer is
    set, each of its firings starts a fetch, whether or not earlier fetches
    are still pending, so [n] firings in a row leave [n] more fetches in
    flight and nothing else changed. *)
Theorem ticks_pile_up {num info Err} (w : World num info Err) id delay n :
  timers w !! id = Some (FetchAndSet, delay) →
  let w' := run w (replicate n (Tick id)) in
  pending w' = pending w + n
  ∧ fetch_calls (trace w') = fetch_calls (trace w) + n
  ∧ data w' = data w ∧ timers w' = timers w
  ∧ set_data_calls (trace w') = set_data_calls (trace w).
Proof.
  intros Hid. simpl. revert w Hid.
  induction n as [|n IH]; intros w Hid; simpl.
  - split_and!; try done; lia.
  - rewrite Hid.
    destruct (IH (call_fetchAndSet w) Hid) as (-> & -> & -> & -> & ->).
    unfold call_fetchAndSet, log. simpl.
    rewrite LifeFacts.fetch_calls_snoc, ComponentFacts.set_data_calls_app.
    simpl. rewrite app_nil_r. split_and!; try done; lia.
Qed.

End Overlap.

(** ** The further properties on the samples *)

Module SampleMore.
Import Component Sample.

Local Abbreviation groupedZ := (groupedBySector Z.add 0%Z).

(** Numbered sectors first, by value; then the others as they first occur;
    [valueOf] is passed over. *)
Example chartData_numbered :
  ChartEntry.name <$> chartData Z.add 0%Z numbered
  = ["9"; "10"; "IT"; "Financials"].
Proof. reflexivity. Qed.

Lemma groupedBySector_keys_Permutation_witness :
  reverse portfolio ≡ₚ portfolio
  ∧ Js.keys (groupedZ (reverse portfolio)) ≡ₚ Js.keys (groupedZ portfolio).
Proof.
  assert (reverse portfolio ≡ₚ portfolio) as Hp by apply reverse_Permutation.
  split; [exact Hp|].
  exact (groupedBySector_keys_Permutation Z.add 0%Z _ _ Hp).
Defined.

Lemma chartData_adds_up_witness :
  Forall (λ h, Js.inherited (StockData.sector h) = false) portfolio
  ∧ chart_total Z.add 0%Z ChartEntry.investment (chartData Z.add 0%Z portfolio)
    = total Z.add 0%Z StockData.investment portfolio.
Proof.
  assert (Forall (λ h : StockData.t Z unit,
                    Js.inherited (StockData.sector h) = false) portfolio)
    as Hall by (repeat constructor).
  split; [exact Hall|].
  exact (proj1 (chartData_adds_up Z.add 0%Z
                  Z.add_assoc Z.add_comm Z.add_0_r portfolio Hall)).
Defined.

Lemma failed_poll_keeps_polling_witness :
  timers mounted !! 0 = Some (FetchAndSet, 15000%Z)
  ∧ ∀ p, data (run (step mounted (Settle (Rejected "503")))
                   [Tick 0; Settle (Fulfilled p)]) = p.
Proof.
  assert (timers mounted !! 0 = Some (FetchAndSet, 15000%Z)) as Hid
    by reflexivity.
  split; [exact Hid|].
  exact (proj2 (proj2 (proj2
           (LifeFacts.failed_poll_keeps_polling mounted "503" 0 _ Hid)))).
Defined.

Lemma teardown_stops_polling_only_witness :
  Forall running in_flight
  ∧ pending (run (step initial Mount) in_flight) = 1
  ∧ stale (step (run (step initial Mount) in_flight) Unmount) = 1
  ∧ set_data_calls
      (trace (run (step initial Mount)
                  (in_flight ++ [Unmount; SettleStale (Fulfilled relabelled)])))
    = [portfolio; relabelled].
Proof.
  assert (Forall running in_flight) as Hrun by (repeat constructor).
  split; [exact Hrun|].
  destruct (LifeFacts.teardown_stops_polling_only in_flight Hrun)
    as (_ & _ & Hstale & Hset).
  split; [reflexivity|]. split; [exact Hstale|].
  exact (Hset relabelled (Nat.neq_succ_0 0)).
Defined.

Lemma state_is_initial_or_fetched_witness :
  Forall (Forall running) [events] ∧ Forall running in_flight
  ∧ (data (run initial (lives [events] ++ Mount :: in_flight)) = []
     ∨ Settle (Fulfilled
                 (data (run initial (lives [events] ++ Mount :: in_flight))))
       ∈ in_flight).
Proof.
  assert (Forall (Forall running) [events]) as Hpast
    by (repeat constructor).
  assert (Forall running in_flight) as Hrun by (repeat constructor).
  split; [exact Hpast|]. split; [exact Hrun|].
  exact (LifeFacts.state_is_initial_or_fetched [events] in_flight Hpast Hrun).
Defined.

(** A remounted component starts from the empty list, and a fetch of the
    instance torn down, fulfilled later, does not reach it. *)
Example remount_starts_empty :
  data (run initial (lives [in_flight])) = portfolio
  ∧ data (run initial (lives [in_flight] ++ [Mount])) = []
  ∧ data (run initial (lives [in_flight]
                       ++ [Mount; SettleStale (Fulfilled relabelled)])) = [].
Proof. by split_and!. Qed.

Lemma remount_has_one_timer_witness :
  Forall running events
  ∧ timers (run (step (step (run (step initial Mount) events) Unmount) Mount)
                events)
    = {[ 1 := (FetchAndSet, 15000%Z) ]}.
Proof.
  assert (Forall running events) as Hrun by (repeat constructor).
  split; [exact Hrun|].
  exact (proj1 (LifeFacts.remount_has_one_timer events events Hrun Hrun)).
Defined.

Lemma ticks_pile_up_witness :
  timers mounted !! 0 = Some (FetchAndSet, 15000%Z)
  ∧ pending (run mounted (replicate 3 (Tick 0))) = pending mounted + 3.
Proof.
  assert (timers mounted !! 0 = Some (FetchAndSet, 15000%Z)) as Hid
    by reflexivity.
  split; [exact Hid|].
  exact (proj1 (Overlap.ticks_pile_up mounted 0 _ 3 Hid)).
Defined.

End SampleMore.

(** ** The aggregation over the doubles of the runtime *)

Module Doubles.
Import Sample.

Local Abbreviation groupedF := (groupedBySector PrimFloat.add 0%float).

(** Over doubles the aggregation is no list homomorphism: aggregating
    [0.1] together with [0.2; 0.3] gives an investment of
    0.6000000000000001 for the sector, whereas the totals of the two parts,
    0.1 and 0.5, add up to 0.6. *)
Lemma groupedBySector_not_homomorphic_on_doubles :
  ¬ ∀ k, Js.get_own k (groupedF (tenth ++ fifth_and_three_tenths)) =
         pointwise_sum PrimFloat.add (Js.get_own k (groupedF tenth))
                       (Js.get_own k (groupedF fifth_and_three_tenths)).
Proof.
  intros Hhom. specialize (Hhom "IT").
  apply (f_equal (λ o : option (Summary.t float),
                    match o with
                    | Some s => PrimFloat.ltb 0x1.3333333333333p-1%float
                                              (Summary.investment s)
                    | None => false
                    end)) in Hhom.
  vm_compute in Hhom. discriminate Hhom.
Qed.

End Doubles.
